(** * Effect inference of the TNT/Quint toolchain: the inferrer visitor

    A shallow embedding of [EffectInferrerVisitor] and [inferEffects]
    (the effect inferrer that ends [src/tntc/src/generated/TntParser.ts])
    together with the properties of the inference rules.

    The visitor is stateful: its fields are the record [Visitor], its
    methods are computations in the monad [M] (state passing, with an
    outcome for a thrown [Error]).  The functions the inferrer imports
    ([unify], [applySubstitution], [compose], [effectNames],
    [lookupValue], ...) are the fields of the class [Imports]: the rules
    are proved for every implementation of them, and [specImports]
    provides one to run the inferrer on concrete modules. *)

From stdpp Require Import gmap strings list fin_maps pretty.

Set Warnings "-register-all".
Set Default Proof Using "Type".

(** ** The effect algebra ([./base], [./substitutions]) *)

Inductive Variables :=
  | VConcrete (vars : list string)
  | VQuantified (name : string).

Inductive Effect :=
  | EConcrete (read update temporal : Variables)
  | EQuantified (name : string)
  | EArrow (params : list Effect) (result : Effect).

Definition emptyVariables : Variables := VConcrete [].

(** The entries of [effectNames]: [{ kind: 'effect' | 'variable', name }]. *)
Inductive NameKind := KEffect | KVariable.

Record Name := mkName { nkind : NameKind; nname : string }.

(** A binding [{ kind, name, value }]; the kind selects the type of the
    value. *)
Inductive Substitution :=
  | SubEffect (name : string) (value : Effect)
  | SubVariable (name : string) (value : Variables).

Definition subName (s : Substitution) : string :=
  match s with SubEffect n _ | SubVariable n _ => n end.

Abbreviation Substitutions := (list Substitution).

(** [{ message?, location, children }] *)
Inductive ErrorTree :=
  | mkErrorTree (message : option string) (location : string)
                (children : list ErrorTree).

Inductive Either (L R : Type) :=
  | Left (l : L)
  | Right (r : R).
Arguments Left {L R} l.
Arguments Right {L R} r.

Definition chain {L A B} (x : Either L A) (f : A → Either L B) : Either L B :=
  match x with Left l => Left l | Right a => f a end.

(** [mergeInMany]: every [Right] value, or the errors of the [Left]s. *)
Fixpoint mergeInMany {L A} (xs : list (Either L A)) : Either (list L) (list A) :=
  match xs with
  | [] => Right []
  | x :: xs =>
      match x, mergeInMany xs with
      | Right a, Right l => Right (a :: l)
      | Right _, Left es => Left es
      | Left e, Right _ => Left [e]
      | Left e, Left es => Left (e :: es)
      end
  end.

(** ** The intermediate representation ([../tntIr]) *)

Record TntOpDefOf (E : Type) := mkOpDef {
  opdefId : Z;
  opdefName : string;
  opdefQualifier : string;
  opdefExpr : E
}.
Arguments mkOpDef {E}.
Arguments opdefId {E}.
Arguments opdefName {E}.
Arguments opdefQualifier {E}.
Arguments opdefExpr {E}.

Inductive TntEx :=
  | TntName (id : Z) (name : string)
  | TntBool (id : Z) (value : bool)
  | TntInt (id : Z) (value : Z)
  | TntStr (id : Z) (value : string)
  | TntApp (id : Z) (opcode : string) (args : list TntEx)
  | TntLambda (id : Z) (params : list string) (qualifier : string) (expr : TntEx)
  | TntLet (id : Z) (opdef : TntOpDefOf TntEx) (expr : TntEx).

Abbreviation TntOpDef := (TntOpDefOf TntEx).

Definition exId (e : TntEx) : Z :=
  match e with
  | TntName id _ | TntBool id _ | TntInt id _ | TntStr id _
  | TntApp id _ _ | TntLambda id _ _ _ | TntLet id _ _ => id
  end.

Inductive TntModule :=
  | mkModule (id : Z) (name : string) (defs : list TntDef)
with TntDef :=
  | DefOp (def : TntOpDef)
  | DefConst (id : Z) (name : string)
  | DefVar (id : Z) (name : string)
  | DefAssume (id : Z) (name : string) (assumption : TntEx)
  | DefTypeDef (id : Z) (name : string)
  | DefImport (id : Z) (name path : string)
  | DefInstance (id : Z) (name protoName : string)
                (overrides : list (string * TntEx))
  | DefModule (id : Z) (module : TntModule).

Definition moduleName (m : TntModule) : string :=
  match m with mkModule _ n _ => n end.

Definition moduleId (m : TntModule) : Z :=
  match m with mkModule i _ _ => i end.

(** ** Name resolution ([../lookupTable], [../scoping]) *)

(** The switch of [exitName] tells ['param'], ['const'] and ['var']
    apart; every other kind (['def'], ['val'], ['module'], ...) takes
    its default branch. *)
Inductive DefKind :=
  | KParam
  | KConst
  | KVar
  | KOther (kind : string).

Record ValueDefinition := mkValueDefinition {
  kind : DefKind;
  identifier : string;
  reference : option Z;
  scope : option Z
}.

Inductive ScopeTree :=
  | mkScopeTree (value : Z) (children : list ScopeTree).

Abbreviation LookupTable := (gmap string (list ValueDefinition)).
Abbreviation LookupTableByModule := (gmap string (gmap string (list ValueDefinition))).
Abbreviation Signature := (nat → Effect).

(** JavaScript truthiness of an optional [bigint]: [undefined] and [0n]
    are falsy. *)
Definition truthyId (o : option Z) : option Z :=
  match o with
  | Some 0%Z => None
  | o => o
  end.

(** ** The imported functions *)

Class Imports := {
  (* ./base *)
  unify : Effect → Effect → Either ErrorTree Substitutions;
  effectNames : Effect → list Name;
  (* ./substitutions *)
  applySubstitution : Substitutions → Effect → Either ErrorTree Effect;
  compose : Substitutions → Substitutions → Either ErrorTree Substitutions;
  (* ../lookupTable, ../scoping *)
  lookupValue : LookupTable → ScopeTree → string → Z → option ValueDefinition;
  treeFromModule : TntModule → ScopeTree;
  (* ../IRprinting, ../errorTree *)
  expressionToString : TntEx → string;
  errorTreeToString : ErrorTree → string
}.

(** ** The visitor's state and its monad *)

(** A value of the [effects] map is [None] where the JavaScript [Map]
    holds [undefined] under a key ([set(id, get(other)!)] with [other]
    absent).  [currentTable] is [None] after
    [this.lookupTable.get(name)!] missed. *)
Record Visitor := mkVisitor {
  effects : gmap Z (option Effect);
  errors : gmap Z ErrorTree;
  freshVarCounters : gmap string N;
  currentModule : option TntModule;
  currentTable : option (gmap string (list ValueDefinition));
  currentScopeTree : ScopeTree;
  moduleStack : list TntModule;
  substitutions : Substitutions
}.

Inductive outcome (A : Type) :=
  | Ok (a : A)
  | Throw (msg : string).
Arguments Ok {A} a.
Arguments Throw {A} msg.

Definition M (A : Type) : Type := Visitor → outcome (A * Visitor).

Definition ret {A} (a : A) : M A := λ st, Ok (a, st).

Definition bind {A B} (m : M A) (k : A → M B) : M B := λ st,
  match m st with
  | Ok (a, st') => k a st'
  | Throw msg => Throw msg
  end.

Definition throw {A} (msg : string) : M A := λ _, Throw msg.

Notation "'let!' x := c 'in' k" := (bind c (λ x, k))
  (at level 10, x name, c at level 100, k at level 200).
Notation "'run!' c 'in' k" := (bind c (λ _, k))
  (at level 10, c at level 100, k at level 200).

(** What the JavaScript runtime throws when imported code dereferences
    an [undefined] table or effect. *)
Definition TypeError : string := "TypeError: Cannot read properties of undefined".

Fixpoint mapM {A B} (f : A → M B) (l : list A) : M (list B) :=
  match l with
  | [] => ret []
  | a :: l => let! b := f a in let! bs := mapM f l in ret (b :: bs)
  end.

Fixpoint forEachM {A} (f : A → M unit) (l : list A) : M unit :=
  match l with
  | [] => ret tt
  | a :: l => run! f a in forEachM f l
  end.

(** Field access and assignment. *)
Definition gets {A} (f : Visitor → A) : M A := λ st, Ok (f st, st).

Definition setEffects (m : gmap Z (option Effect)) (st : Visitor) : Visitor :=
  mkVisitor m (errors st) (freshVarCounters st) (currentModule st)
            (currentTable st) (currentScopeTree st) (moduleStack st)
            (substitutions st).

Definition setErrors (m : gmap Z ErrorTree) (st : Visitor) : Visitor :=
  mkVisitor (effects st) m (freshVarCounters st) (currentModule st)
            (currentTable st) (currentScopeTree st) (moduleStack st)
            (substitutions st).

Definition setFreshVarCounters (m : gmap string N) (st : Visitor) : Visitor :=
  mkVisitor (effects st) (errors st) m (currentModule st)
            (currentTable st) (currentScopeTree st) (moduleStack st)
            (substitutions st).

Definition setSubstitutions (s : Substitutions) (st : Visitor) : Visitor :=
  mkVisitor (effects st) (errors st) (freshVarCounters st) (currentModule st)
            (currentTable st) (currentScopeTree st) (moduleStack st) s.

Definition setModuleStack (l : list TntModule) (st : Visitor) : Visitor :=
  mkVisitor (effects st) (errors st) (freshVarCounters st) (currentModule st)
            (currentTable st) (currentScopeTree st) l (substitutions st).

Definition setCurrent (m : TntModule)
    (t : option (gmap string (list ValueDefinition))) (tree : ScopeTree)
    (st : Visitor) : Visitor :=
  mkVisitor (effects st) (errors st) (freshVarCounters st) (Some m)
            t tree (moduleStack st) (substitutions st).

Definition modify (f : Visitor → Visitor) : M unit := λ st, Ok (tt, f st).

(** [this.effects.has(id)], [this.effects.get(id)], [this.effects.set(id, e)] *)
Definition effectsHas (st : Visitor) (id : Z) : bool :=
  bool_decide (is_Some (effects st !! id)).

Definition effectsGet (st : Visitor) (id : Z) : option Effect :=
  match effects st !! id with
  | Some v => v
  | None => None
  end.

Definition effectsSet (id : Z) (e : option Effect) : M unit :=
  modify (λ st, setEffects (<[id := e]> (effects st)) st).

Definition errorsSet (id : Z) (e : ErrorTree) : M unit :=
  modify (λ st, setErrors (<[id := e]> (errors st)) st).

Definition pure : Effect := EConcrete emptyVariables emptyVariables emptyVariables.

(** The name of the placeholder of a lambda parameter: [`e_${p}_${e.id}`]. *)
Definition paramName (p : string) (id : Z) : string :=
  "e_" +:+ p +:+ "_" +:+ pretty id.

(** [applySubstitution(s, effect).map(e => this.effects.set(id, e))] on
    one stored effect: the entry is replaced where the application
    succeeds and kept where it fails. *)
Definition rewriteEffect `{Imports} (s : Substitutions) (v : option Effect)
    : option Effect :=
  match v with
  | Some e =>
      match applySubstitution s e with
      | Right e' => Some e'
      | Left _ => Some e
      end
  | None => None
  end.

Definition allDefined (m : gmap Z (option Effect)) : bool :=
  forallb (λ kv : Z * option Effect, bool_decide (is_Some kv.2)) (map_to_list m).

(** [{ kind: name.kind, name: name.name, value: { kind: 'quantified', name: v } }]:
    the value is a quantified effect or a quantified variable set, as
    the kind says. *)
Definition renaming (name : Name) (v : string) : Substitution :=
  match nkind name with
  | KEffect => SubEffect (nname name) (EQuantified v)
  | KVariable => SubVariable (nname name) (VQuantified v)
  end.

(** ** The visitor *)

Section EffectInferrerVisitor.
Context `{Imports}.
Variable builtinSignatures : gmap string Signature.
Variable lookupTable : LookupTableByModule.

(** [lookupValue(this.currentTable, this.currentScopeTree, name, scope)] *)
Definition lookup (name : string) (scope : Z) : M (option ValueDefinition) := λ st,
  match currentTable st with
  | Some table => Ok (lookupValue table (currentScopeTree st) name scope, st)
  | None => Throw TypeError
  end.

Definition updateCurrentModule : M unit := λ st,
  match last (moduleStack st) with
  | Some m =>
      Ok (tt, setCurrent m (lookupTable !! moduleName m) (treeFromModule m) st)
  | None => Ok (tt, st)
  end.

Definition enterModuleDef (module : TntModule) : M unit :=
  run! modify (λ st, setModuleStack (moduleStack st ++ [module]) st) in
  updateCurrentModule.

Definition exitModuleDef : M unit :=
  run! modify (λ st, setModuleStack (removelast (moduleStack st)) st) in
  updateCurrentModule.

(** The counters are JavaScript numbers.  They are natural numbers
    here: [counter + 1] and the decimal text of [counter] are exact on
    a number as long as the counter is below 2^53 ([counterLimit]
    below); what is proved of the names and of the growth of a counter
    is proved under that bound. *)
Definition freshVar (prefix : string) : M string := λ st,
  let counter := default 0%N (freshVarCounters st !! prefix) in
  Ok (prefix +:+ pretty counter,
      setFreshVarCounters (<[prefix := (counter + 1)%N]> (freshVarCounters st)) st).

Definition freshBinding (name : Name) : M Substitution :=
  let! v := freshVar "v" in
  ret (renaming name v).

Definition lambdaIntroduced (s : Substitution) : bool :=
  String.prefix "e_" (subName s).

Definition newInstance (effect : Effect) : M Effect :=
  let names := effectNames effect in
  let! subs := mapM freshBinding names in
  run! modify (λ st,
    match compose (filter lambdaIntroduced subs) (substitutions st) with
    | Right s => setSubstitutions s st
    | Left _ => st
    end) in
  match applySubstitution subs effect with
  | Left err =>
      throw ("Error applying fresh names substitution: "
             +:+ errorTreeToString err +:+ " ")
  | Right e => ret e
  end.

Definition fetchSignature (opcode : string) (scope : Z) (arity : nat)
    : M (Either string Effect) :=
  let! effect :=
    match builtinSignatures !! opcode with
    | Some signatureFunction => ret (signatureFunction arity)
    | None =>
        let! def := lookup opcode scope in
        let! st := gets (λ st, st) in
        match truthyId (def ≫= reference) with
        | Some id =>
            if effectsHas st id then
              match effectsGet st id with
              | Some e => ret e
              | None => throw TypeError
              end
            else throw ("Signature not found for name: " +:+ opcode)
        | None => throw ("Signature not found for name: " +:+ opcode)
        end
    end in
  let! e := newInstance effect in
  ret (Right e).

Definition exitName (id : Z) (name : string) : M unit :=
  let! def := lookup name id in
  match def with
  | None => throw ("Definition not found for name: " +:+ name)
  | Some def =>
      match kind def with
      | KParam =>
          let! st := gets (λ st, st) in
          match truthyId (reference def) with
          | Some r =>
              if effectsHas st r then effectsSet id (effectsGet st r)
              else throw ("Couldn't find an effect for lambda parameter named "
                          +:+ name +:+ " in context")
          | None => throw ("Couldn't find an effect for lambda parameter named "
                           +:+ name +:+ " in context")
          end
      | KConst => effectsSet id (Some pure)
      | KVar =>
          effectsSet id
            (Some (EConcrete (VConcrete [name]) emptyVariables emptyVariables))
      | KOther _ =>
          let! s := fetchSignature name id 2 in
          match s with
          | Right s => effectsSet id (Some s)
          | Left _ => ret tt
          end
      end
  end.

(** [expr.args.map(a => this.effects.get(a.id)!)]; an argument without
    an effect puts [undefined] among the parameters handed to [unify]. *)
Definition argEffects (args : list TntEx) : M (list Effect) :=
  mapM (λ a, let! st := gets (λ st, st) in
             match effectsGet st (exId a) with
             | Some e => ret e
             | None => throw TypeError
             end) args.

(** [this.effects.forEach((effect, id) =>
      applySubstitution(s, effect).map(e => this.effects.set(id, e)))] *)
Definition rewriteEffects (s : Substitutions) : M unit := λ st,
  if allDefined (effects st)
  then Ok (tt, setEffects (rewriteEffect s <$> effects st) st)
  else Throw TypeError.

Definition exitApp (id : Z) (opcode : string) (args : list TntEx) : M unit := λ st,
  if bool_decide (0 < size (errors st)) then Ok (tt, st) else
  let location :=
    "Trying to infer effect for operator application in "
    +:+ expressionToString (TntApp id opcode args) in
  (let! r := fetchSignature opcode id (length args) in
   match r with
   | Left m => errorsSet id (mkErrorTree (Some m) location [])
   | Right signature =>
       let! name := freshVar "e" in
       let resultEffect := EQuantified name in
       let! params := argEffects args in
       let effect := EArrow params resultEffect in
       let substitution := unify signature effect in
       let! subs := gets substitutions in
       let! resultEffectWithSubs :=
         match chain substitution (λ s, compose s subs) with
         | Left err => ret (Left err : Either ErrorTree Effect)
         | Right s =>
             run! modify (setSubstitutions s) in
             run! rewriteEffects s in
             ret (applySubstitution s resultEffect)
         end in
       match resultEffectWithSubs with
       | Right e => effectsSet id (Some e)
       | Left error => errorsSet id (mkErrorTree None location [error])
       end
   end) st.

Definition exitLiteral (id : Z) : M unit := effectsSet id (Some pure).

(** The [console.log] of the recorded errors is output only. *)
Definition exitOpDef (id : Z) (expr : TntEx) : M unit := λ st,
  match effectsGet st (exId expr) with
  | None => Ok (tt, st)
  | Some e => effectsSet id (Some e) st
  end.

Definition exitLet (id : Z) (expr : TntEx) : M unit := λ st,
  if bool_decide (0 < size (errors st)) then Ok (tt, st) else
  effectsSet id (effectsGet st (exId expr)) st.

Definition enterLambda (id : Z) (params : list string) (expr : TntEx) : M unit :=
  forEachM (λ p,
    let! def := lookup p (exId expr) in
    match truthyId (def ≫= reference) with
    | Some r => effectsSet r (Some (EQuantified (paramName p id)))
    | None => ret tt
    end) params.

Definition exitLambda (id : Z) (params : list string) (expr : TntEx) : M unit := λ st,
  match effectsGet st (exId expr) with
  | None => Ok (tt, st)
  | Some resultEffect =>
      let params' := mergeInMany
        ((λ p, applySubstitution (substitutions st)
                 (EQuantified (paramName p id))) <$> params) in
      match params' with
      | Right ps => effectsSet id (Some (EArrow ps resultEffect)) st
      | Left _ => Ok (tt, st)
      end
  end.

End EffectInferrerVisitor.

(** ** The traversal ([../IRVisitor]) *)

(** The callbacks of [IRVisitor] that [EffectInferrerVisitor] implements,
    with the node each one receives. *)
Inductive Callback :=
  | CEnterModuleDef (module : TntModule)
  | CExitModuleDef
  | CExitName (id : Z) (name : string)
  | CExitApp (id : Z) (opcode : string) (args : list TntEx)
  | CExitLiteral (id : Z)
  | CExitOpDef (id : Z) (expr : TntEx)
  | CExitLet (id : Z) (expr : TntEx)
  | CEnterLambda (id : Z) (params : list string) (expr : TntEx)
  | CExitLambda (id : Z) (params : list string) (expr : TntEx).

(** Modelled from the spec: [walkModule] and the walkers of
    [../IRVisitor], which are not part of the sources at hand.  The tree
    is walked once, depth first and left to right; a node's [enter]
    callback runs before its children and its [exit] callback after
    them; the module itself is entered and left as a module definition.
    The walk is the sequence of callbacks it makes. *)
Fixpoint walkExpression (e : TntEx) : list Callback :=
  match e with
  | TntName id name => [CExitName id name]
  | TntBool id _ | TntInt id _ | TntStr id _ => [CExitLiteral id]
  | TntApp id opcode args =>
      (fix walkArgs (l : list TntEx) : list Callback :=
         match l with
         | [] => []
         | a :: l => walkExpression a ++ walkArgs l
         end) args ++ [CExitApp id opcode args]
  | TntLambda id params _ expr =>
      CEnterLambda id params expr :: walkExpression expr
        ++ [CExitLambda id params expr]
  | TntLet id opdef expr =>
      (match opdef with
       | mkOpDef defId _ _ body => walkExpression body ++ [CExitOpDef defId body]
       end) ++ walkExpression expr ++ [CExitLet id expr]
  end.

Definition walkOpDef (def : TntOpDef) : list Callback :=
  walkExpression (opdefExpr def) ++ [CExitOpDef (opdefId def) (opdefExpr def)].

Fixpoint walkDefs (m : TntModule) : list Callback :=
  match m with
  | mkModule _ _ defs =>
      (fix walkAll (l : list TntDef) : list Callback :=
         match l with
         | [] => []
         | d :: l => walkDefinition d ++ walkAll l
         end) defs
  end
with walkDefinition (d : TntDef) : list Callback :=
  match d with
  | DefOp def => walkOpDef def
  | DefAssume _ _ assumption => walkExpression assumption
  | DefInstance _ _ _ overrides =>
      flat_map (λ o : string * TntEx, walkExpression o.2) overrides
  | DefModule _ module =>
      CEnterModuleDef module :: walkDefs module ++ [CExitModuleDef]
  | DefConst _ _ | DefVar _ _ | DefTypeDef _ _ | DefImport _ _ _ => []
  end.

Definition callbacks (module : TntModule) : list Callback :=
  CEnterModuleDef module :: walkDefs module ++ [CExitModuleDef].

Section Inference.
Context `{Imports}.
Variable builtinSignatures : gmap string Signature.
Variable lookupTable : LookupTableByModule.

Definition visit (c : Callback) : M unit :=
  match c with
  | CEnterModuleDef module => enterModuleDef lookupTable module
  | CExitModuleDef => exitModuleDef lookupTable
  | CExitName id name => exitName builtinSignatures id name
  | CExitApp id opcode args => exitApp builtinSignatures id opcode args
  | CExitLiteral id => exitLiteral id
  | CExitOpDef id expr => exitOpDef id expr
  | CExitLet id expr => exitLet id expr
  | CEnterLambda id params expr => enterLambda id params expr
  | CExitLambda id params expr => exitLambda id params expr
  end.

(** [new EffectInferrerVisitor(builtinSignatures, lookupTable)]: the
    field initialisers; [newTable({})] is the empty table. *)
Definition newVisitor : Visitor :=
  {| effects := ∅;
     errors := ∅;
     freshVarCounters := ∅;
     currentModule := None;
     currentTable := Some ∅;
     currentScopeTree := mkScopeTree 0 [];
     moduleStack := [];
     substitutions := [] |}.

Definition walk (cs : list Callback) : M unit := forEachM visit cs.

Definition walkModule (module : TntModule) : M unit := walk (callbacks module).

Definition inferEffects (module : TntModule)
    : outcome (Either (gmap Z ErrorTree) (gmap Z (option Effect))) :=
  match walkModule module newVisitor with
  | Ok (_, visitor) =>
      Ok (if bool_decide (0 < size (errors visitor))
          then Left (errors visitor)
          else Right (effects visitor))
  | Throw msg => Throw msg
  end.

(** The visitor as [walkModule] leaves it (the [visitor] constant of
    [inferEffects]). *)
Definition visitorAfter (module : TntModule) : outcome Visitor :=
  match walkModule module newVisitor with
  | Ok (_, visitor) => Ok visitor
  | Throw msg => Throw msg
  end.

End Inference.

(** ** An implementation of the imported functions *)

Module SpecModel.

Definition leaf (location message : string) : ErrorTree :=
  mkErrorTree (Some message) location [].

Fixpoint mapE {L A B} (f : A → Either L B) (l : list A) : Either L (list B) :=
  match l with
  | [] => Right []
  | a :: l => chain (f a) (λ b, chain (mapE f l) (λ bs, Right (b :: bs)))
  end.

Global Instance NameKind_eq_dec : EqDecision NameKind.
Proof. solve_decision. Defined.

Global Instance Name_eq_dec : EqDecision Name.
Proof. solve_decision. Defined.

Definition variablesNames (v : Variables) : list Name :=
  match v with
  | VConcrete _ => []
  | VQuantified n => [mkName KVariable n]
  end.

Fixpoint allNames (e : Effect) : list Name :=
  match e with
  | EConcrete r u t => variablesNames r ++ variablesNames u ++ variablesNames t
  | EQuantified n => [mkName KEffect n]
  | EArrow params result =>
      (fix paramsNames (l : list Effect) : list Name :=
         match l with
         | [] => []
         | p :: l => allNames p ++ paramsNames l
         end) params ++ allNames result
  end.

(** Modelled from the spec: [effectNames] of [./base] (the spec's
    [effectVariableNames]), the set of the quantified names reachable
    in an effect, inside its variable sets and its arrow parameters
    and result; each name once, in the order of first occurrence. *)
Definition effectNames (e : Effect) : list Name := remove_dups (allNames e).

Definition findBinding (subs : Substitutions) (n : string) : option Substitution :=
  List.find (λ s, String.eqb (subName s) n) subs.

Definition kindMismatch (n : string) : ErrorTree :=
  leaf ("Applying a substitution to " +:+ n)
       "The kind of the binding does not match the kind of the variable".

Definition applySubstitutionToVariables (subs : Substitutions) (v : Variables)
    : Either ErrorTree Variables :=
  match v with
  | VConcrete _ => Right v
  | VQuantified n =>
      match findBinding subs n with
      | None => Right v
      | Some (SubVariable _ value) => Right value
      | Some (SubEffect _ _) => Left (kindMismatch n)
      end
  end.

(** Modelled from the spec: [applySubstitution] of [./substitutions].
    Every quantified effect variable and quantified variable set whose
    name has a binding is replaced by the bound value, in one
    simultaneous pass, through arrow parameters and results and the
    three variable sets of a concrete effect; a binding of the other
    kind at a site is a failure. *)
Fixpoint applySubstitution (subs : Substitutions) (e : Effect)
    : Either ErrorTree Effect :=
  match e with
  | EQuantified n =>
      match findBinding subs n with
      | None => Right e
      | Some (SubEffect _ value) => Right value
      | Some (SubVariable _ _) => Left (kindMismatch n)
      end
  | EArrow params result =>
      chain ((fix applyAll (l : list Effect) : Either ErrorTree (list Effect) :=
                match l with
                | [] => Right []
                | p :: l =>
                    chain (applySubstitution subs p) (λ p',
                    chain (applyAll l) (λ l', Right (p' :: l')))
                end) params) (λ ps,
      chain (applySubstitution subs result) (λ r, Right (EArrow ps r)))
  | EConcrete r u t =>
      chain (applySubstitutionToVariables subs r) (λ r',
      chain (applySubstitutionToVariables subs u) (λ u',
      chain (applySubstitutionToVariables subs t) (λ t',
      Right (EConcrete r' u' t'))))
  end.

Definition applyToBinding (subs : Substitutions) (s : Substitution)
    : Either ErrorTree Substitution :=
  match s with
  | SubEffect n value => chain (applySubstitution subs value) (λ v, Right (SubEffect n v))
  | SubVariable n value =>
      chain (applySubstitutionToVariables subs value) (λ v, Right (SubVariable n v))
  end.

(** Modelled from the spec: [compose] of [./substitutions].  The new
    substitution is applied to the value of every existing binding,
    then the new bindings whose names are not keys of the existing
    substitution are appended. *)
Definition compose (newSubs existingSubs : Substitutions)
    : Either ErrorTree Substitutions :=
  chain (mapE (applyToBinding newSubs) existingSubs) (λ existing',
  Right (existing' ++
         filter (λ s, subName s ∉ subName <$> existingSubs) newSubs)).

Definition unifyVariables (location : string) (v1 v2 : Variables)
    : Either ErrorTree Substitutions :=
  match v1, v2 with
  | VQuantified n, _ => Right [SubVariable n v2]
  | _, VQuantified n => Right [SubVariable n v1]
  | VConcrete s1, VConcrete s2 =>
      if bool_decide (list_to_set s1 =@{gset string} list_to_set s2)
      then Right []
      else Left (leaf location "Expected the same set of variables")
  end.

Definition bindEffect (location n : string) (e : Effect)
    : Either ErrorTree Substitutions :=
  if bool_decide (mkName KEffect n ∈ allNames e)
  then Left (leaf location ("Can't bind " +:+ n +:+ ": cyclical binding"))
  else Right [SubEffect n e].

Section UnifyArrows.
Variable unify : Effect → Effect → Either ErrorTree Substitutions.

(** The parameter pairs from left to right, then the results: the
    substitution accumulated so far is applied to a pair before it
    is unified. *)
Fixpoint unifyPairs (acc : Substitutions) (pairs : list (Effect * Effect))
    : Either ErrorTree Substitutions :=
  match pairs with
  | [] => Right acc
  | (e1, e2) :: pairs =>
      chain (applySubstitution acc e1) (λ e1',
      chain (applySubstitution acc e2) (λ e2',
      chain (unify e1' e2') (λ s,
      chain (compose s acc) (λ acc',
      unifyPairs acc' pairs))))
  end.
End UnifyArrows.

Fixpoint unifyFuel (fuel : nat) (expected actual : Effect)
    : Either ErrorTree Substitutions :=
  let location := "Trying to unify two effects" in
  match fuel with
  | O => Left (leaf location "Effects nested too deep")
  | S fuel =>
      match expected, actual with
      | EQuantified n, EQuantified m =>
          if String.eqb n m then Right [] else bindEffect location n actual
      | EQuantified n, _ => bindEffect location n actual
      | _, EQuantified n => bindEffect location n expected
      | EConcrete r1 u1 t1, EConcrete r2 u2 t2 =>
          chain (unifyVariables location r1 r2) (λ sr,
          chain (unifyVariables location u1 u2) (λ su,
          chain (unifyVariables location t1 t2) (λ st,
          chain (compose su sr) (λ s, compose st s))))
      | EArrow p1 r1, EArrow p2 r2 =>
          if bool_decide (length p1 = length p2)
          then unifyPairs (unifyFuel fuel) [] (zip p1 p2 ++ [(r1, r2)])
          else Left (leaf location "Expected the same number of arguments")
      | _, _ => Left (leaf location "Can't unify different types of effects")
      end
  end.

Fixpoint depth (e : Effect) : nat :=
  match e with
  | EArrow params result =>
      S (max ((fix paramsDepth (l : list Effect) : nat :=
                 match l with
                 | [] => 0
                 | p :: l => max (depth p) (paramsDepth l)
                 end) params) (depth result))
  | _ => 1
  end.

(** Modelled from the spec: [unify] of [./base], by the case analysis
    of the spec's table: equal quantified names give the empty
    substitution; a quantified name is bound to the other effect
    unless it occurs in it; concrete effects unify their variable sets
    slot by slot; arrows of the same arity unify their parameters and
    then their results; any other pairing is a mismatch.  The
    recursion is bounded by the nesting of the two effects. *)
Definition unify (expected actual : Effect) : Either ErrorTree Substitutions :=
  unifyFuel (S (depth expected + depth actual) * 2) expected actual.

Fixpoint scopesForId (tree : ScopeTree) (id : Z) : list Z :=
  match tree with
  | mkScopeTree value children =>
      if bool_decide (value = id) then [value] else
      match
        (fix search (l : list ScopeTree) : list Z :=
           match l with
           | [] => []
           | c :: l =>
               match scopesForId c id with
               | [] => search l
               | scopes => scopes
               end
           end) children
      with
      | [] => []
      | scopes => scopes ++ [value]
      end
  end.

(** Modelled from the spec: [lookupValue] of [../lookupTable].  A name
    resolves to the first of its definitions that has no scope or
    whose scope is the node asking or one of the nodes around it in
    the scope tree. *)
Definition lookupValue (table : LookupTable) (tree : ScopeTree)
    (name : string) (from : Z) : option ValueDefinition :=
  match table !! name with
  | None => None
  | Some defs =>
      let scopes := scopesForId tree from in
      List.find (λ d,
        match truthyId (scope d) with
        | None => true
        | Some s => bool_decide (s ∈ scopes)
        end) defs
  end.

Fixpoint treeFromExpression (e : TntEx) : ScopeTree :=
  match e with
  | TntName id _ | TntBool id _ | TntInt id _ | TntStr id _ => mkScopeTree id []
  | TntApp id _ args =>
      mkScopeTree id
        ((fix trees (l : list TntEx) : list ScopeTree :=
            match l with
            | [] => []
            | a :: l => treeFromExpression a :: trees l
            end) args)
  | TntLambda id _ _ expr => mkScopeTree id [treeFromExpression expr]
  | TntLet id opdef expr =>
      mkScopeTree id
        [match opdef with
         | mkOpDef defId _ _ body => mkScopeTree defId [treeFromExpression body]
         end; treeFromExpression expr]
  end.

(** Modelled from the spec: [treeFromModule] of [../scoping], the tree
    of the node ids of a module, each node above the nodes it
    contains. *)
Fixpoint treeFromModule (m : TntModule) : ScopeTree :=
  match m with
  | mkModule id _ defs =>
      mkScopeTree id
        ((fix trees (l : list TntDef) : list ScopeTree :=
            match l with
            | [] => []
            | d :: l => treeFromDefinition d :: trees l
            end) defs)
  end
with treeFromDefinition (d : TntDef) : ScopeTree :=
  match d with
  | DefOp (mkOpDef id _ _ body) => mkScopeTree id [treeFromExpression body]
  | DefAssume id _ assumption => mkScopeTree id [treeFromExpression assumption]
  | DefInstance id _ _ overrides =>
      mkScopeTree id ((λ o : string * TntEx, treeFromExpression o.2) <$> overrides)
  | DefModule id module => mkScopeTree id [treeFromModule module]
  | DefConst id _ | DefVar id _ | DefTypeDef id _ | DefImport id _ _ =>
      mkScopeTree id []
  end.

(** Modelled from the spec: [expressionToString] of [../IRprinting],
    the source text of an expression, used in error locations only. *)
Fixpoint expressionToString (e : TntEx) : string :=
  match e with
  | TntName _ name => name
  | TntBool _ value => if value then "true" else "false"
  | TntInt _ value => pretty value
  | TntStr _ value => value
  | TntApp _ opcode args =>
      opcode +:+ "("
        +:+ (fix commas (l : list TntEx) : string :=
               match l with
               | [] => ""
               | [a] => expressionToString a
               | a :: l => expressionToString a +:+ ", " +:+ commas l
               end) args
        +:+ ")"
  | TntLambda _ params _ expr =>
      "(" +:+ String.concat ", " params +:+ " => " +:+ expressionToString expr +:+ ")"
  | TntLet _ opdef expr =>
      match opdef with
      | mkOpDef _ name qualifier body =>
          qualifier +:+ " " +:+ name +:+ " = " +:+ expressionToString body
      end +:+ " { " +:+ expressionToString expr +:+ " }"
  end.

(** Modelled from the spec: [errorTreeToString] of [../errorTree], a
    rendering of an error tree, used in messages only. *)
Fixpoint errorTreeToString (e : ErrorTree) : string :=
  match e with
  | mkErrorTree message location children =>
      location +:+ default "" message
        +:+ (fix render (l : list ErrorTree) : string :=
               match l with
               | [] => ""
               | c :: l => errorTreeToString c +:+ render l
               end) children
  end.

Definition specImports : Imports :=
  Build_Imports unify effectNames applySubstitution compose
                lookupValue treeFromModule
                expressionToString errorTreeToString.

End SpecModel.

(** ** Sample modules *)

Module Samples.
Import SpecModel.

(** [(Read[r1] & Temporal[t1]) => Read[r1] & Temporal[t1]], at every
    arity. *)
Definition notSignature : Signature := λ _,
  EArrow [EConcrete (VQuantified "r1") emptyVariables (VQuantified "t1")]
         (EConcrete (VQuantified "r1") emptyVariables (VQuantified "t1")).

Definition builtins : gmap string Signature := {[ "not" := notSignature ]}.

Definition builtinDef (name : string) : ValueDefinition :=
  mkValueDefinition (KOther "def") name None None.

Definition operatorDef (name : string) (id : Z) : ValueDefinition :=
  mkValueDefinition (KOther "def") name (Some id) None.

(** [module failSoft { def bad = not(true, false)  def good = not(true) }] *)
Definition badCall : TntEx := TntApp 3 "not" [TntBool 1 true; TntBool 2 false].
Definition goodCall : TntEx := TntApp 6 "not" [TntBool 5 true].

Definition failSoft : TntModule :=
  mkModule 8 "failSoft"
    [DefOp (mkOpDef 4 "bad" "def" badCall);
     DefOp (mkOpDef 7 "good" "def" goodCall)].

(** The same definitions, the valid one first. *)
Definition failLast : TntModule :=
  mkModule 8 "failSoft"
    [DefOp (mkOpDef 7 "good" "def" goodCall);
     DefOp (mkOpDef 4 "bad" "def" badCall)].

Definition failSoftTables : LookupTableByModule :=
  {[ "failSoft" := {[ "not" := [builtinDef "not"];
                      "bad" := [operatorDef "bad" 4];
                      "good" := [operatorDef "good" 7] ]} ]}.

(** [module undefinedName { def a = undefinedOp(1) }], with nothing
    known about [undefinedOp]. *)
Definition undefinedName : TntModule :=
  mkModule 4 "undefinedName"
    [DefOp (mkOpDef 3 "a" "def" (TntApp 2 "undefinedOp" [TntInt 1 1]))].

Definition undefinedNameTables : LookupTableByModule :=
  {[ "undefinedName" := {[ "not" := [builtinDef "not"];
                           "a" := [operatorDef "a" 3] ]} ]}.

(** [module letInLambda { def f = (p => val y = p { y }) }] *)
Definition letInLambda : TntModule :=
  mkModule 7 "letInLambda"
    [DefOp (mkOpDef 6 "f" "def"
       (TntLambda 5 ["p"] "def"
          (TntLet 4 (mkOpDef 2 "y" "val" (TntName 1 "p")) (TntName 3 "y"))))].

Definition letInLambdaTables : LookupTableByModule :=
  {[ "letInLambda" :=
       {[ "p" := [mkValueDefinition KParam "p" (Some 5%Z) (Some 5%Z)];
          "y" := [mkValueDefinition (KOther "val") "y" (Some 2%Z) (Some 4%Z)];
          "f" := [operatorDef "f" 6] ]} ]}.

(** [module readX { var x: int  def a = not(x)  def n = not }] *)
Definition readX : TntModule :=
  mkModule 7 "readX"
    [DefVar 1 "x";
     DefOp (mkOpDef 4 "a" "def" (TntApp 3 "not" [TntName 2 "x"]));
     DefOp (mkOpDef 6 "n" "def" (TntName 5 "not"))].

Definition readXTable : gmap string (list ValueDefinition) :=
  {[ "not" := [builtinDef "not"];
     "x" := [mkValueDefinition KVar "x" (Some 1%Z) None];
     "a" := [operatorDef "a" 4];
     "n" := [operatorDef "n" 6] ]}.

Definition readXTables : LookupTableByModule := {[ "readX" := readXTable ]}.

(** [module letVar { var x: int  def a = val y = x { y } }] *)
Definition letVar : TntModule :=
  mkModule 7 "letVar"
    [DefVar 1 "x";
     DefOp (mkOpDef 6 "a" "def"
       (TntLet 5 (mkOpDef 3 "y" "val" (TntName 2 "x")) (TntName 4 "y")))].

Definition letVarTable : gmap string (list ValueDefinition) :=
  {[ "x" := [mkValueDefinition KVar "x" (Some 1%Z) None];
     "y" := [mkValueDefinition (KOther "val") "y" (Some 3%Z) (Some 5%Z)];
     "a" := [operatorDef "a" 6] ]}.

Definition letVarTables : LookupTableByModule := {[ "letVar" := letVarTable ]}.







(** [(e_p_5) => Read[r1]]: the placeholder of the parameter [p] of the
    lambda 5, and a name of the convention of the builtin signatures. *)
Definition parameterAndRead : Effect :=
  EArrow [EQuantified "e_p_5"]
         (EConcrete (VQuantified "r1") (VConcrete []) (VConcrete [])).

(** [Read[x]] *)
Definition readOf (x : string) : Effect :=
  EConcrete (VConcrete [x]) (VConcrete []) (VConcrete []).

(** The error of [not(true, false)]. *)
Definition arityError : ErrorTree :=
  mkErrorTree None
    "Trying to infer effect for operator application in not(true, false)"
    [mkErrorTree (Some "Expected the same number of arguments")
       "Trying to unify two effects" []].

(** The visitor after the callbacks [cs], from a new one. *)
Definition stateAfter (lookupTable : LookupTableByModule) (cs : list Callback)
    : Visitor :=
  match walk (H := specImports) builtins lookupTable cs newVisitor with
  | Ok (_, st) => st
  | Throw _ => newVisitor
  end.

End Samples.

(** The effect and the error of a node in the visitor that a traversal
    leaves. *)
Definition effectAt (o : outcome Visitor) (id : Z) : option Effect :=
  match o with
  | Ok visitor => effectsGet visitor id
  | Throw _ => None
  end.

Definition errorAt (o : outcome Visitor) (id : Z) : option ErrorTree :=
  match o with
  | Ok visitor => errors visitor !! id
  | Throw _ => None
  end.

(** ** Runs of the fresh-name generator *)

(** A run of the inferrer as far as [freshVarCounters] can tell: the
    calls of [freshVar], each with the prefix it was given and the name
    it returned, between steps of the visitor that leave the counters as
    they are ([freshVar] is the only method that writes the field). *)
Inductive freshCalls : Visitor → list (string * string) → Visitor → Prop :=
  | freshCalls_done st : freshCalls st [] st
  | freshCalls_call st prefix name st1 tr st2 :
      freshVar prefix st = Ok (name, st1) →
      freshCalls st1 tr st2 →
      freshCalls st ((prefix, name) :: tr) st2
  | freshCalls_other st st1 tr st2 :
      freshVarCounters st1 = freshVarCounters st →
      freshCalls st1 tr st2 →
      freshCalls st tr st2.

Definition counterOf (st : Visitor) (prefix : string) : N :=
  default 0%N (freshVarCounters st !! prefix).

(** The first integer that a JavaScript number cannot tell from its
    successor: [2 ** 53 + 1 === 2 ** 53].  Up to this value of a
    counter, every call of [freshVar] has added exactly one. *)
Definition counterLimit : N := 2 ^ 53.

(** No counter of the visitor is above the limit. *)
Definition countersExact (st : Visitor) : Prop :=
  map_Forall (λ _ counter, (counter ≤ counterLimit)%N) (freshVarCounters st).

(** The names that [n] calls of [freshVar('v')] return from the counter
    [c] on, and the visitor after them. *)
Fixpoint minted (c : N) (n : nat) : list string :=
  match n with
  | O => []
  | S n => ("v" +:+ pretty c) :: minted (c + 1) n
  end.

Definition afterFresh (n : nat) (st : Visitor) : Visitor :=
  match n with
  | O => st
  | S _ =>
      setFreshVarCounters
        (<["v" := (counterOf st "v" + N.of_nat n)%N]> (freshVarCounters st)) st
  end.

(** What [enterLambda] does to the [effects] map for one parameter
    [p] of the lambda [id] with body [body]. *)
Definition installParam `{Imports} (table : gmap string (list ValueDefinition))
    (tree : ScopeTree) (id body : Z) (m : gmap Z (option Effect)) (p : string)
    : gmap Z (option Effect) :=
  match truthyId (lookupValue table tree p body ≫= reference) with
  | Some r => <[r := Some (EQuantified (paramName p id))]> m
  | None => m
  end.


(** [keeps f m]: the computation [m] does not change the field [f]. *)
Definition keeps {A X} (f : Visitor → X) (m : M A) : Prop :=
  ∀ st a st', m st = Ok (a, st') → f st' = f st.

(** ** The scan for conflicting definitions ([definitionsScanner.ts]) *)

(** [{ kind: 'user', reference } | { kind: 'builtin' }] *)
Inductive ConflictSource :=
  | SourceUser (reference : Z)
  | SourceBuiltin.

Inductive ConflictKind := ConflictOperator | ConflictType.

Record Conflict := mkConflict {
  conflictKind : ConflictKind;
  conflictIdentifier : string;
  conflictSources : list ConflictSource
}.

(** [{ kind: 'ok' } | { kind: 'error', conflicts }] *)
Inductive DefinitionsConflictResult :=
  | ConflictsOk
  | ConflictsError (conflicts : list Conflict).

(** The fields of a [TypeDefinition] that the scan reads. *)
Record TypeDefinition := mkTypeDefinition {
  typeIdentifier : string;
  typeReference : option Z
}.

(** A [DefinitionTable]; its name definitions have the fields of
    [ValueDefinition]. *)
Record DefinitionTable := mkDefinitionTable {
  nameDefinitions : list ValueDefinition;
  typeDefinitions : list TypeDefinition
}.

Global Instance ConflictKind_eq_dec : EqDecision ConflictKind.
Proof. solve_decision. Defined.

(** [d.reference ? { kind: 'user', reference: d.reference } : { kind: 'builtin' }] *)
Definition sourceOf (reference : option Z) : ConflictSource :=
  match truthyId reference with
  | Some r => SourceUser r
  | None => SourceBuiltin
  end.

Section DefinitionsScanner.
(** [scopesForId] of [./scoping], which the sources at hand do not
    include. *)
Variable scopesForId : ScopeTree → Z → list Z.
Variable tree : ScopeTree.

Definition canConflict (d1 d2 : ValueDefinition) : bool :=
  match truthyId (scope d1), truthyId (scope d2) with
  | None, _ => true
  | _, None => true
  | Some s1, Some s2 => bool_decide (s2 ∈ scopesForId tree s1)
  end.

(** [table.nameDefinitions.filter(d =>
      d.identifier === def.identifier && canConflict(tree, d, def))] *)
Definition conflictingNames (defs : list ValueDefinition) (def : ValueDefinition)
    : list ValueDefinition :=
  filter (λ d, identifier d = identifier def ∧ canConflict d def = true) defs.

(** [table.typeDefinitions.filter(d => d.identifier === def.identifier)] *)
Definition conflictingTypes (defs : list TypeDefinition) (def : TypeDefinition)
    : list TypeDefinition :=
  filter (λ d, typeIdentifier d = typeIdentifier def) defs.

(** The callbacks of the two [reduce] calls: the accumulator is the set
    [reportedConflicts], paired here with the [conflicts] array that the
    callbacks push to. *)
Definition scanName (defs : list ValueDefinition)
    (acc : gset string * list Conflict) (def : ValueDefinition)
    : gset string * list Conflict :=
  if bool_decide (identifier def ∈ acc.1) then acc else
  let conflictingDefinitions := conflictingNames defs def in
  if bool_decide (1 < length conflictingDefinitions)
  then ({[identifier def]} ∪ acc.1,
        acc.2 ++ [mkConflict ConflictOperator (identifier def)
                    ((λ d, sourceOf (reference d)) <$> conflictingDefinitions)])
  else acc.

Definition scanType (defs : list TypeDefinition)
    (acc : gset string * list Conflict) (def : TypeDefinition)
    : gset string * list Conflict :=
  if bool_decide (typeIdentifier def ∈ acc.1) then acc else
  let conflictingDefinitions := conflictingTypes defs def in
  if bool_decide (1 < length conflictingDefinitions)
  then ({[typeIdentifier def]} ∪ acc.1,
        acc.2 ++ [mkConflict ConflictType (typeIdentifier def)
                    ((λ d, sourceOf (typeReference d)) <$> conflictingDefinitions)])
  else acc.

Definition scanNames (defs : list ValueDefinition) : list Conflict :=
  (foldl (scanName defs) (∅, []) defs).2.

Definition scanTypes (defs : list TypeDefinition) (conflicts : list Conflict)
    : list Conflict :=
  (foldl (scanType defs) (∅, conflicts) defs).2.

Definition scanConflicts (table : DefinitionTable) : DefinitionsConflictResult :=
  let conflicts :=
    scanTypes (typeDefinitions table) (scanNames (nameDefinitions table)) in
  if bool_decide (0 < length conflicts)
  then ConflictsError conflicts
  else ConflictsOk.

End DefinitionsScanner.

(** The common shape of [scanName] and [scanType]: a definition whose
    identifier is not reported yet is reported when more than one
    definition conflicts with it. *)
Definition scanStep {A} (ident : A → string) (count : A → nat) (report : A → Conflict)
    (acc : gset string * list Conflict) (a : A) : gset string * list Conflict :=
  if bool_decide (ident a ∈ acc.1) then acc else
  if bool_decide (1 < count a)
  then ({[ident a]} ∪ acc.1, acc.2 ++ [report a])
  else acc.

Definition reportName (scopesForId : ScopeTree → Z → list Z) (tree : ScopeTree)
    (defs : list ValueDefinition) (def : ValueDefinition) : Conflict :=
  mkConflict ConflictOperator (identifier def)
    ((λ d, sourceOf (reference d)) <$> conflictingNames scopesForId tree defs def).

Definition reportType (defs : list TypeDefinition) (def : TypeDefinition) : Conflict :=
  mkConflict ConflictType (typeIdentifier def)
    ((λ d, sourceOf (typeReference d)) <$> conflictingTypes defs def).

(** ** Relations between the visitor before and after a method *)

(** [steps R m]: whenever [m] completes, the visitors before and after
    it are related by [R]. *)
Definition steps {A} (R : Visitor → Visitor → Prop) (m : M A) : Prop :=
  ∀ st a st', m st = Ok (a, st') → R st st'.

(** Every key of the [effects] map is still a key afterwards. *)
Definition keepsKeys (st st' : Visitor) : Prop :=
  dom (effects st) ⊆ dom (effects st').

(** No counter decreases, and only the prefixes [e] and [v] have their
    counters changed. *)
Definition countersGrow (st st' : Visitor) : Prop :=
  ∀ prefix,
    (counterOf st prefix ≤ counterOf st' prefix)%N
    ∧ (prefix ≠ "e" → prefix ≠ "v" →
       freshVarCounters st' !! prefix = freshVarCounters st !! prefix).

(** Only the entry of the node [id] of the [effects] map may differ. *)
Definition writesOnly (id : Z) (st st' : Visitor) : Prop :=
  ∀ k, k ≠ id → effects st' !! k = effects st !! k.

(** The node whose effect a callback sets, for the callbacks that set
    the effect of their own node and nothing else. *)
Definition callbackNode (c : Callback) : option Z :=
  match c with
  | CExitName id _ | CExitLiteral id | CExitOpDef id _ | CExitLet id _
  | CExitLambda id _ _ => Some id
  | CEnterModuleDef _ | CExitModuleDef | CExitApp _ _ _ | CEnterLambda _ _ _ => None
  end.

(** The traversal context is the same in both visitors. *)
Definition sameContext (st st' : Visitor) : Prop :=
  moduleStack st' = moduleStack st
  ∧ currentModule st' = currentModule st
  ∧ currentTable st' = currentTable st
  ∧ currentScopeTree st' = currentScopeTree st.

(** The visitor is inside the module [m]: [m] is on top of the stack
    and the current table and scope tree are those of [m]. *)
Definition inModule `{Imports} (lookupTable : LookupTableByModule)
    (m : TntModule) (st : Visitor) : Prop :=
  last (moduleStack st) = Some m
  ∧ currentModule st = Some m
  ∧ currentTable st = lookupTable !! moduleName m
  ∧ currentScopeTree st = treeFromModule m.

Definition isModuleCallback (c : Callback) : bool :=
  match c with
  | CEnterModuleDef _ | CExitModuleDef => true
  | _ => false
  end.

(** The definitions without an expression to infer. *)
Definition isDeclaration (d : TntDef) : bool :=
  match d with
  | DefConst _ _ | DefVar _ _ | DefTypeDef _ _ | DefImport _ _ _ => true
  | DefOp _ | DefAssume _ _ _ | DefInstance _ _ _ _ | DefModule _ _ => false
  end.

(** ** Sample lambdas, nested modules and definition tables *)

Module MoreSamples.
Import SpecModel Samples.

(** [module twoParams { def f = ((p, q) => p) }], with both parameters
    defined under the reference of the lambda. *)
Definition twoParams : TntModule :=
  mkModule 4 "twoParams"
    [DefOp (mkOpDef 3 "f" "def" (TntLambda 2 ["p"; "q"] "def" (TntName 1 "p")))].

Definition twoParamsTable : gmap string (list ValueDefinition) :=
  {[ "p" := [mkValueDefinition KParam "p" (Some 2%Z) (Some 2%Z)];
     "q" := [mkValueDefinition KParam "q" (Some 2%Z) (Some 2%Z)];
     "f" := [operatorDef "f" 3] ]}.

Definition twoParamsTables : LookupTableByModule :=
  {[ "twoParams" := twoParamsTable ]}.

(** [module outer { module inner { var x: int }  var y: int }] *)
Definition inner : TntModule := mkModule 2 "inner" [DefVar 1 "x"].

Definition outer : TntModule :=
  mkModule 5 "outer" [DefModule 3 inner; DefVar 4 "y"].

Definition outerTables : LookupTableByModule :=
  {[ "outer" := {[ "y" := [mkValueDefinition KVar "y" (Some 4%Z) None] ]};
     "inner" := {[ "x" := [mkValueDefinition KVar "x" (Some 1%Z) None] ]} ]}.

(** A module (node 10) with two operator definitions (nodes 1 and 2)
    side by side. *)
Definition sideBySide : ScopeTree :=
  mkScopeTree 10 [mkScopeTree 1 []; mkScopeTree 2 []].

(** The builtin [not] and a [val not] inside the operator 1; the type
    [T] defined twice. *)
Definition clashes : DefinitionTable :=
  mkDefinitionTable
    [builtinDef "not";
     mkValueDefinition (KOther "val") "not" (Some 7%Z) (Some 1%Z)]
    [mkTypeDefinition "T" (Some 3%Z); mkTypeDefinition "T" (Some 4%Z)].

(** A [val x] inside each of the two operators, and one type. *)
Definition apart : DefinitionTable :=
  mkDefinitionTable
    [mkValueDefinition (KOther "val") "x" (Some 7%Z) (Some 1%Z);
     mkValueDefinition (KOther "val") "x" (Some 8%Z) (Some 2%Z)]
    [mkTypeDefinition "T" (Some 3%Z)].

End MoreSamples.

(** * Properties *)

Ltac monad_unfold :=
  unfold bind, ret, gets, modify, throw, effectsSet, errorsSet in *.

(** ** [freshVar] *)

Lemma freshVar_eq prefix st :
  freshVar prefix st =
  Ok (prefix +:+ pretty (counterOf st prefix),
      setFreshVarCounters
        (<[prefix := (counterOf st prefix + 1)%N]> (freshVarCounters st)) st).
Proof. reflexivity. Qed.

Lemma freshVar_counter_le prefix p st name st' :
  freshVar prefix st = Ok (name, st') →
  (counterOf st p ≤ counterOf st' p)%N.
Proof.
  rewrite freshVar_eq. intros [= _ <-]. unfold counterOf at 2. simpl.
  destruct (decide (prefix = p)) as [->|Hne].
  - rewrite lookup_insert_eq. simpl. lia.
  - rewrite lookup_insert_ne by done. reflexivity.
Qed.

Lemma countersExact_counterOf st prefix :
  countersExact st → (counterOf st prefix ≤ counterLimit)%N.
Proof.
  intros Hexact. unfold counterOf.
  destruct (freshVarCounters st !! prefix) as [counter|] eqn:Hcounter; simpl.
  - exact (Hexact prefix counter Hcounter).
  - apply N.le_0_l.
Qed.

Lemma freshCalls_lower st tr st' :
  freshCalls st tr st' →
  ∀ p n, (p, n) ∈ tr →
    ∃ c, n = p +:+ pretty c ∧ (counterOf st p ≤ c)%N.
Proof.
  induction 1 as [st|st prefix name st1 tr st2 Hcall _ IH|st st1 tr st2 Heq _ IH];
    intros p n Hin.
  - by apply elem_of_nil in Hin.
  - apply elem_of_cons in Hin as [[= -> ->]|Hin].
    + rewrite freshVar_eq in Hcall. injection Hcall as <- _.
      exists (counterOf st prefix). split; [done|lia].
    + destruct (IH _ _ Hin) as (c & -> & Hle). exists c. split; [done|].
      pose proof (freshVar_counter_le _ p _ _ _ Hcall). lia.
  - destruct (IH _ _ Hin) as (c & -> & Hle). exists c. split; [done|].
    unfold counterOf in *. by rewrite <- Heq.
Qed.

Lemma freshCalls_NoDup st tr st' : freshCalls st tr st' → NoDup tr.
Proof.
  induction 1 as [st|st prefix name st1 tr st2 Hcall Hrest IH|]; [constructor| |done].
  constructor; [|done]. intros Hin.
  destruct (freshCalls_lower _ _ _ Hrest _ _ Hin) as (c & Hname & Hle).
  rewrite freshVar_eq in Hcall. injection Hcall as Hn Hst. subst st1.
  rewrite Hname in Hn. apply (inj (String.app prefix)) in Hn.
  apply (inj pretty) in Hn. subst c.
  unfold counterOf at 1 in Hle. simpl in Hle.
  rewrite lookup_insert_eq in Hle. simpl in Hle. lia.
Qed.

(** C8. Fresh-name uniqueness.  A call of [freshVar] returns the prefix
    followed by the prefix's counter, which is 0 for a prefix not seen
    before, and, the counter being below the limit of exact numbers,
    leaves the counter one higher; so in any run of the visitor that
    leaves no counter above that limit, whatever the visitor does
    between the calls, two different calls of [freshVar] with the same
    prefix return different names. *)
Theorem freshVar_unique :
  (∀ prefix st,
     (counterOf st prefix < counterLimit)%N →
     ∃ st',
       freshVar prefix st = Ok (prefix +:+ pretty (counterOf st prefix), st')
       ∧ (freshVarCounters st !! prefix = None → counterOf st prefix = 0%N)
       ∧ freshVarCounters st' !! prefix = Some (counterOf st prefix + 1)%N
       ∧ (counterOf st prefix < counterOf st' prefix ≤ counterLimit)%N)
  ∧ (∀ st tr st' i j prefix ni nj,
       freshCalls st tr st' →
       countersExact st' →
       tr !! i = Some (prefix, ni) →
       tr !! j = Some (prefix, nj) →
       i ≠ j →
       ni ≠ nj).
Proof.
  split.
  - intros prefix st Hlimit. eexists. split; [apply freshVar_eq|]. split; [|split].
    + intros Hnone. unfold counterOf. by rewrite Hnone.
    + simpl. apply lookup_insert_eq.
    + assert (counterOf
                (setFreshVarCounters
                   (<[prefix := (counterOf st prefix + 1)%N]> (freshVarCounters st)) st)
                prefix = (counterOf st prefix + 1)%N) as ->
        by (unfold counterOf at 1; simpl; by rewrite lookup_insert_eq).
      lia.
  - intros st tr st' i j prefix ni nj Hcalls _ Hi Hj Hij ->.
    apply Hij. eapply NoDup_lookup; [by eapply freshCalls_NoDup|done..].
Qed.

(** ** The state monad *)

Lemma bind_Ok {A B} (m : M A) (k : A → M B) st r :
  bind m k st = Ok r → ∃ a st1, m st = Ok (a, st1) ∧ k a st1 = Ok r.
Proof.
  unfold bind. destruct (m st) as [[a st1]|msg]; [|done]. intros Hk. eauto.
Qed.

Lemma bind_Ok_eq {A B} (m : M A) (k : A → M B) st a st1 :
  m st = Ok (a, st1) → bind m k st = k a st1.
Proof. unfold bind. by intros ->. Qed.


Lemma setEffects_id st : setEffects (effects st) st = st.
Proof. by destruct st. Qed.

Lemma setEffects_setEffects m m' st :
  setEffects m (setEffects m' st) = setEffects m st.
Proof. reflexivity. Qed.

Lemma forEachM_app {A} (f : A → M unit) l1 l2 st :
  forEachM f (l1 ++ l2) st = bind (forEachM f l1) (λ _, forEachM f l2) st.
Proof.
  revert st. induction l1 as [|a l1 IH]; intros st; simpl.
  - reflexivity.
  - unfold bind. destruct (f a st) as [[[] st1]|msg]; [|reflexivity].
    rewrite IH. reflexivity.
Qed.

(** ** Name references *)

Section NameRules.
Context `{Imports}.
Variable builtinSignatures : gmap string Signature.
Variables (st : Visitor) (table : gmap string (list ValueDefinition)).
Hypothesis Htable : currentTable st = Some table.

Lemma lookup_eq name from :
  lookup name from st = Ok (lookupValue table (currentScopeTree st) name from, st).
Proof using Htable. unfold lookup. by rewrite Htable. Qed.

Lemma exitName_resolved id name def :
  lookupValue table (currentScopeTree st) name id = Some def →
  exitName builtinSignatures id name st =
  match kind def with
  | KParam =>
      match truthyId (reference def) with
      | Some r =>
          if effectsHas st r then effectsSet id (effectsGet st r) st
          else Throw ("Couldn't find an effect for lambda parameter named "
                      +:+ name +:+ " in context")
      | None => Throw ("Couldn't find an effect for lambda parameter named "
                       +:+ name +:+ " in context")
      end
  | KConst => effectsSet id (Some pure) st
  | KVar =>
      effectsSet id
        (Some (EConcrete (VConcrete [name]) emptyVariables emptyVariables)) st
  | KOther _ =>
      bind (fetchSignature builtinSignatures name id 2)
           (λ s, match s with
                 | Right s => effectsSet id (Some s)
                 | Left _ => ret tt
                 end) st
  end.
Proof using Htable.
  intros Hdef. unfold exitName.
  rewrite (bind_Ok_eq _ _ _ _ _ (lookup_eq name id)), Hdef.
  destruct (kind def); try reflexivity.
  unfold bind, gets. destruct (truthyId (reference def)); [|done].
  by destruct (effectsHas st z).
Qed.


Lemma fetchSignature_builtin opcode from arity signatureFunction :
  builtinSignatures !! opcode = Some signatureFunction →
  fetchSignature builtinSignatures opcode from arity st =
  bind (newInstance (signatureFunction arity)) (λ e, ret (Right e)) st.
Proof. intros Hb. unfold fetchSignature. by rewrite Hb. Qed.

End NameRules.

(** C7. Variable-read footprint.  A name reference that resolves to a
    definition of kind ['var'] gets the effect
    [Concrete(read = {name}, update = ∅, temporal = ∅)]: the read set is
    the one-element list of the referenced name, the update and the
    temporal set are empty, and nothing else of the visitor changes. *)
Theorem exitName_var `{Imports} builtinSignatures st table id name def :
  currentTable st = Some table →
  lookupValue table (currentScopeTree st) name id = Some def →
  kind def = KVar →
  ∃ st',
    exitName builtinSignatures id name st = Ok (tt, st')
    ∧ st' = setEffects
              (<[id := Some (EConcrete (VConcrete [name]) (VConcrete []) (VConcrete []))]>
                 (effects st)) st
    ∧ effectsGet st' id
      = Some (EConcrete (VConcrete [name]) (VConcrete []) (VConcrete [])).
Proof.
  intros Htable Hdef Hkind. eexists. split; [|split; [reflexivity|]].
  - rewrite (exitName_resolved _ _ _ Htable _ _ _ Hdef), Hkind. reflexivity.
  - unfold effectsGet. simpl. by rewrite lookup_insert_eq.
Qed.

(** C9. A bare reference to an operator.  A name reference that resolves
    to a definition of any kind other than ['param'], ['const'] and
    ['var'] fetches the signature of the name with the arity 2, whatever
    the operator is; for a builtin the fresh instance of the signature
    function at 2 is the effect installed for the reference. *)
Theorem exitName_operator_arity `{Imports} builtinSignatures st table id name def k :
  currentTable st = Some table →
  lookupValue table (currentScopeTree st) name id = Some def →
  kind def = KOther k →
  exitName builtinSignatures id name st
  = bind (fetchSignature builtinSignatures name id 2)
         (λ s, match s with
               | Right s => effectsSet id (Some s)
               | Left _ => ret tt
               end) st
  ∧ ∀ signatureFunction,
      builtinSignatures !! name = Some signatureFunction →
      exitName builtinSignatures id name st
      = bind (newInstance (signatureFunction 2))
             (λ e, effectsSet id (Some e)) st
      ∧ ∀ e st1,
          newInstance (signatureFunction 2) st = Ok (e, st1) →
          exitName builtinSignatures id name st
          = Ok (tt, setEffects (<[id := Some e]> (effects st1)) st1).
Proof.
  intros Htable Hdef Hkind.
  rewrite (exitName_resolved _ _ _ Htable _ _ _ Hdef), Hkind.
  split; [done|]. intros signatureFunction Hb.
  assert (bind (fetchSignature builtinSignatures name id 2)
            (λ s, match s with
                  | Right s => effectsSet id (Some s)
                  | Left _ => ret tt
                  end) st
          = bind (newInstance (signatureFunction 2))
                 (λ e, effectsSet id (Some e)) st) as ->.
  { unfold bind at 1. rewrite (fetchSignature_builtin _ _ _ _ _ _ Hb).
    unfold bind, ret.
    by destruct (newInstance (signatureFunction 2) st) as [[e st1]|msg]. }
  split; [done|]. intros e st1 Hnew. by rewrite (bind_Ok_eq _ _ _ _ _ Hnew).
Qed.

(** ** Lambda parameters *)

Lemma enterLambda_eq `{Imports} st table id params expr :
  currentTable st = Some table →
  enterLambda id params expr st
  = Ok (tt, setEffects
              (foldl (installParam table (currentScopeTree st) id (exId expr))
                     (effects st) params) st).
Proof.
  revert st. induction params as [|p params IH]; intros st Htable; simpl.
  - by rewrite setEffects_id.
  - unfold enterLambda in *. simpl.
    rewrite (bind_Ok_eq _ _ st tt
      (setEffects (installParam table (currentScopeTree st) id (exId expr)
                     (effects st) p) st)).
    + rewrite IH by done. reflexivity.
    + rewrite (bind_Ok_eq _ _ _ _ _ (lookup_eq _ _ Htable _ _)).
      unfold installParam.
      destruct (truthyId _); [reflexivity|].
      unfold ret. by rewrite setEffects_id.
Qed.



(** ** What the methods leave alone *)

Create HintDb keeps.

Section Keeps.
Context `{Imports} {X : Type} (f : Visitor → X).

Lemma keeps_ret {A} (a : A) : keeps f (ret a).
Proof. by intros st a' st' [= _ <-]. Qed.

Lemma keeps_throw {A} msg : keeps f (throw msg : M A).
Proof. by intros st a st' ?. Qed.

Lemma keeps_gets {A} (g : Visitor → A) : keeps f (gets g).
Proof. by intros st a st' [= _ <-]. Qed.

Lemma keeps_bind {A B} (m : M A) (k : A → M B) :
  keeps f m → (∀ a, keeps f (k a)) → keeps f (bind m k).
Proof.
  intros Hm Hk st b st' (a & st1 & Hm1 & Hk1)%bind_Ok.
  rewrite (Hk _ _ _ _ Hk1). by eapply Hm.
Qed.

Lemma keeps_modify (g : Visitor → Visitor) :
  (∀ st, f (g st) = f st) → keeps f (modify g).
Proof. intros Hg st a st' [= _ <-]. apply Hg. Qed.

Lemma keeps_mapM {A B} (g : A → M B) l :
  (∀ a, keeps f (g a)) → keeps f (mapM g l).
Proof.
  intros Hg. induction l as [|a l IH]; simpl; [apply keeps_ret|].
  apply keeps_bind; [done|]. intros b.
  apply keeps_bind; [done|]. intros bs. apply keeps_ret.
Qed.

Lemma keeps_forEachM {A} (g : A → M unit) l :
  (∀ a, keeps f (g a)) → keeps f (forEachM g l).
Proof.
  intros Hg. induction l as [|a l IH]; simpl; [apply keeps_ret|].
  by apply keeps_bind.
Qed.

Lemma keeps_lookup name from : keeps f (lookup name from).
Proof.
  intros st a st'. unfold lookup.
  destruct (currentTable st); [|done]. by intros [= _ <-].
Qed.

End Keeps.

#[export] Hint Resolve keeps_ret keeps_throw keeps_gets keeps_lookup : keeps.

Ltac keeps_step :=
  first
    [ apply keeps_bind; [|intros ?]
    | apply keeps_mapM; intros ?
    | apply keeps_forEachM; intros ?
    | apply keeps_modify; intros ?; reflexivity
    | solve [auto with keeps]
    | match goal with
      | |- keeps _ (match ?x with _ => _ end) => destruct x
      | |- keeps _ (if ?x then _ else _) => destruct x
      end ].

Ltac keeps_auto := repeat keeps_step.

Section KeepsMaps.
Context `{Imports}.
Variable builtinSignatures : gmap string Signature.
Variable lookupTable : LookupTableByModule.

Lemma keeps_errors_effectsSet id e : keeps errors (effectsSet id e).
Proof. unfold effectsSet. keeps_auto. Qed.

Lemma keeps_errors_freshVar prefix : keeps errors (freshVar prefix).
Proof. by intros st a st' [= _ <-]. Qed.

Lemma keeps_effects_freshVar prefix : keeps effects (freshVar prefix).
Proof. by intros st a st' [= _ <-]. Qed.

Lemma keeps_substitutions_freshVar prefix : keeps substitutions (freshVar prefix).
Proof. by intros st a st' [= _ <-]. Qed.

Lemma keeps_errors_newInstance effect : keeps errors (newInstance effect).
Proof.
  unfold newInstance, freshBinding.
  repeat first
    [ apply keeps_errors_freshVar
    | apply keeps_modify; intros st; by destruct (compose _ _)
    | keeps_step ].
Qed.

Lemma keeps_effects_newInstance effect : keeps effects (newInstance effect).
Proof.
  unfold newInstance, freshBinding.
  repeat first
    [ apply keeps_effects_freshVar
    | apply keeps_modify; intros st; by destruct (compose _ _)
    | keeps_step ].
Qed.

Lemma keeps_errors_fetchSignature opcode from arity :
  keeps errors (fetchSignature builtinSignatures opcode from arity).
Proof.
  unfold fetchSignature.
  repeat first [ apply keeps_errors_newInstance | keeps_step ].
Qed.

Lemma keeps_effects_fetchSignature opcode from arity :
  keeps effects (fetchSignature builtinSignatures opcode from arity).
Proof.
  unfold fetchSignature.
  repeat first [ apply keeps_effects_newInstance | keeps_step ].
Qed.

Lemma keeps_errors_exitName id name :
  keeps errors (exitName builtinSignatures id name).
Proof.
  unfold exitName.
  repeat first
    [ apply keeps_errors_fetchSignature | apply keeps_errors_effectsSet
    | keeps_step ].
Qed.

Lemma keeps_errors_updateCurrentModule : keeps errors (updateCurrentModule lookupTable).
Proof.
  intros st a st'. unfold updateCurrentModule.
  destruct (last (moduleStack st)); by intros [= _ <-].
Qed.

Lemma keeps_errors_enterModuleDef module :
  keeps errors (enterModuleDef lookupTable module).
Proof.
  unfold enterModuleDef.
  repeat first [ apply keeps_errors_updateCurrentModule | keeps_step ].
Qed.

Lemma keeps_errors_exitModuleDef : keeps errors (exitModuleDef lookupTable).
Proof.
  unfold exitModuleDef.
  repeat first [ apply keeps_errors_updateCurrentModule | keeps_step ].
Qed.

Lemma keeps_errors_exitOpDef id expr : keeps errors (exitOpDef id expr).
Proof.
  intros st a st'. unfold exitOpDef.
  destruct (effectsGet st (exId expr)); by intros [= _ <-].
Qed.

Lemma keeps_errors_exitLet id expr : keeps errors (exitLet id expr).
Proof.
  intros st a st'. unfold exitLet. case_bool_decide; by intros [= _ <-].
Qed.

Lemma keeps_errors_enterLambda id params expr :
  keeps errors (enterLambda id params expr).
Proof.
  unfold enterLambda.
  repeat first [ apply keeps_errors_effectsSet | keeps_step ].
Qed.

Lemma keeps_errors_exitLambda id params expr :
  keeps errors (exitLambda id params expr).
Proof.
  intros st a st'. unfold exitLambda.
  destruct (effectsGet st (exId expr)); [|by intros [= _ <-]].
  destruct (mergeInMany _); by intros [= _ <-].
Qed.

(** Every callback keeps the errors recorded so far: only [exitApp]
    writes the map, and only while it is empty. *)
Lemma visit_errors c st st' :
  visit builtinSignatures lookupTable c st = Ok (tt, st') →
  errors st ⊆ errors st'.
Proof.
  destruct c; simpl; intros Hvisit.
  - by rewrite (keeps_errors_enterModuleDef _ _ _ _ Hvisit).
  - by rewrite (keeps_errors_exitModuleDef _ _ _ Hvisit).
  - by rewrite (keeps_errors_exitName _ _ _ _ _ Hvisit).
  - unfold exitApp in Hvisit. case_bool_decide as Hsize.
    + by injection Hvisit as <-.
    + assert (errors st = ∅) as ->; [|apply map_empty_subseteq].
      apply map_size_empty_iff. lia.
  - by rewrite (keeps_errors_effectsSet _ _ _ _ _ Hvisit).
  - by rewrite (keeps_errors_exitOpDef _ _ _ _ _ Hvisit).
  - by rewrite (keeps_errors_exitLet _ _ _ _ _ Hvisit).
  - by rewrite (keeps_errors_enterLambda _ _ _ _ _ _ Hvisit).
  - by rewrite (keeps_errors_exitLambda _ _ _ _ _ _ Hvisit).
Qed.

Lemma walk_errors cs st st' :
  walk builtinSignatures lookupTable cs st = Ok (tt, st') →
  errors st ⊆ errors st'.
Proof.
  revert st. induction cs as [|c cs IH]; intros st; unfold walk; simpl.
  - by intros [= <-].
  - intros ([] & st1 & Hc & Hcs)%bind_Ok.
    etrans; [by eapply visit_errors|by apply IH].
Qed.

Lemma walk_app cs1 cs2 st st' :
  walk builtinSignatures lookupTable (cs1 ++ cs2) st = Ok (tt, st') →
  ∃ st1, walk builtinSignatures lookupTable cs1 st = Ok (tt, st1)
         ∧ walk builtinSignatures lookupTable cs2 st1 = Ok (tt, st').
Proof.
  unfold walk. rewrite forEachM_app.
  intros ([] & st1 & H1 & H2)%bind_Ok. eauto.
Qed.

End KeepsMaps.

(** ** The result of [inferEffects] *)

Lemma errors_size_pos (m : gmap Z ErrorTree) : 0 < size m ↔ m ≠ ∅.
Proof.
  rewrite <- map_size_empty_iff. lia.
Qed.

Lemma subseteq_nonempty (m m' : gmap Z ErrorTree) : m ⊆ m' → m ≠ ∅ → m' ≠ ∅.
Proof.
  intros Hsub [i [x Hix]]%map_choose ->.
  apply (lookup_weaken _ _ _ _ Hix) in Hsub. by rewrite lookup_empty in Hsub.
Qed.

(** C4. The result of [inferEffects].  When the traversal completes
    and leaves the visitor [visitor], the call returns: [Left] of the
    visitor's error map when that map is not empty, and [Right] of the
    visitor's [effects] map when it is empty.  The errors recorded at
    any point of the traversal are all in the final error map, so the
    call returns [Left] exactly when some callback of the traversal
    left an error recorded. *)
Theorem inferEffects_result `{Imports} builtinSignatures lookupTable module visitor :
  visitorAfter builtinSignatures lookupTable module = Ok visitor →
  walk builtinSignatures lookupTable (callbacks module) newVisitor = Ok (tt, visitor)
  ∧ (errors visitor ≠ ∅ →
     inferEffects builtinSignatures lookupTable module = Ok (Left (errors visitor)))
  ∧ (errors visitor = ∅ →
     inferEffects builtinSignatures lookupTable module = Ok (Right (effects visitor)))
  ∧ (∀ cs1 cs2 st,
       callbacks module = cs1 ++ cs2 →
       walk builtinSignatures lookupTable cs1 newVisitor = Ok (tt, st) →
       errors st ⊆ errors visitor)
  ∧ ((∃ errs, inferEffects builtinSignatures lookupTable module = Ok (Left errs))
     ↔ (∃ cs1 cs2 st,
          callbacks module = cs1 ++ cs2
          ∧ walk builtinSignatures lookupTable cs1 newVisitor = Ok (tt, st)
          ∧ errors st ≠ ∅)).
Proof.
  unfold inferEffects, visitorAfter, walkModule.
  destruct (walk _ _ (callbacks module) newVisitor) as [[[] visitor']|msg] eqn:Hwalk;
    [|done].
  intros [= ->]. split; [done|].
  assert (∀ cs1 cs2 st,
            callbacks module = cs1 ++ cs2 →
            walk builtinSignatures lookupTable cs1 newVisitor = Ok (tt, st) →
            errors st ⊆ errors visitor) as Hmono.
  { intros cs1 cs2 st Hsplit Hcs1. rewrite Hsplit in Hwalk.
    apply walk_app in Hwalk as (st1 & Hcs1' & Hcs2).
    rewrite Hcs1 in Hcs1'. injection Hcs1' as <-.
    by eapply walk_errors. }
  split; [|split; [|split; [done|]]].
  - intros Hne. by rewrite bool_decide_true by by apply errors_size_pos.
  - intros ->. by rewrite bool_decide_false by (rewrite map_size_empty; lia).
  - split.
    + intros [errs Hleft]. case_bool_decide as Hsize; [|done].
      exists (callbacks module), [], visitor.
      rewrite app_nil_r. split; [done|]. split; [done|].
      by apply errors_size_pos.
    + intros (cs1 & cs2 & st & Hsplit & Hcs1 & Hne).
      rewrite bool_decide_true; [by eexists|].
      apply errors_size_pos. eapply subseteq_nonempty; [|done]. by eapply Hmono.
Qed.

(** ** Fresh instances *)

Lemma freshBinding_eq name st :
  freshBinding name st
  = Ok (renaming name ("v" +:+ pretty (counterOf st "v")), afterFresh 1 st).
Proof. reflexivity. Qed.

Lemma counterOf_afterFresh n st :
  counterOf (afterFresh n st) "v" = (counterOf st "v" + N.of_nat n)%N.
Proof.
  destruct n as [|n]; simpl; [lia|].
  unfold counterOf at 1. simpl. by rewrite lookup_insert_eq.
Qed.

Lemma afterFresh_S n st : afterFresh n (afterFresh 1 st) = afterFresh (S n) st.
Proof.
  destruct n as [|n]; [done|].
  unfold afterFresh at 1. rewrite counterOf_afterFresh.
  unfold afterFresh, setFreshVarCounters. simpl.
  rewrite insert_insert_eq. do 2 f_equal. lia.
Qed.

Lemma mapM_freshBinding names st :
  mapM freshBinding names st
  = Ok (zip_with renaming names (minted (counterOf st "v") (length names)),
        afterFresh (length names) st).
Proof.
  revert st. induction names as [|name names IH]; intros st; [done|].
  simpl. rewrite (bind_Ok_eq _ _ _ _ _ (freshBinding_eq name st)).
  rewrite (bind_Ok_eq _ _ _ _ _ (IH _)). unfold ret.
  rewrite counterOf_afterFresh, afterFresh_S. reflexivity.
Qed.

Lemma freshCalls_minted n st :
  freshCalls st ((λ v, ("v", v)) <$> minted (counterOf st "v") n) (afterFresh n st).
Proof.
  revert st. induction n as [|n IH]; intros st; [constructor|].
  simpl minted. rewrite fmap_cons.
  eapply (freshCalls_call _ _ _ (afterFresh 1 st)); [reflexivity|].
  rewrite <- (afterFresh_S n st).
  replace (counterOf st "v" + 1)%N with (counterOf (afterFresh 1 st) "v")
    by by rewrite counterOf_afterFresh.
  apply IH.
Qed.

Lemma elem_of_minted v c n :
  v ∈ minted c n → ∃ i, v = "v" +:+ pretty i ∧ (c ≤ i < c + N.of_nat n)%N.
Proof.
  revert c. induction n as [|n IH]; intros c; simpl.
  - by intros ?%elem_of_nil.
  - intros [->|Hin]%elem_of_cons.
    + exists c. split; [done|lia].
    + destruct (IH _ Hin) as (i & -> & Hi). exists i. split; [done|lia].
Qed.

Lemma subName_renaming names vs :
  length names = length vs →
  subName <$> zip_with renaming names vs = nname <$> names.
Proof.
  revert vs. induction names as [|name names IH]; intros [|v vs]; simpl; try done.
  intros [= Hlen]. rewrite IH by done. f_equal.
  unfold renaming. by destruct (nkind name).
Qed.

Lemma length_minted c n : length (minted c n) = n.
Proof. revert c. induction n as [|n IH]; intros c; simpl; [done|]. by rewrite IH. Qed.

Lemma newInstance_eq `{Imports} st effect :
  newInstance effect st
  = match applySubstitution
            (zip_with renaming (effectNames effect)
               (minted (counterOf st "v") (length (effectNames effect)))) effect with
    | Right e =>
        Ok (e,
            match compose
                    (filter lambdaIntroduced
                       (zip_with renaming (effectNames effect)
                          (minted (counterOf st "v") (length (effectNames effect)))))
                    (substitutions st) with
            | Right s => setSubstitutions s (afterFresh (length (effectNames effect)) st)
            | Left _ => afterFresh (length (effectNames effect)) st
            end)
    | Left err =>
        Throw ("Error applying fresh names substitution: "
               +:+ errorTreeToString err +:+ " ")
    end.
Proof.
  unfold newInstance.
  rewrite (bind_Ok_eq _ _ _ _ _ (mapM_freshBinding (effectNames effect) st)).
  unfold bind, modify; simpl.
  replace (substitutions (afterFresh (length (effectNames effect)) st))
    with (substitutions st) by by destruct (length (effectNames effect)).
  by destruct (applySubstitution _ effect).
Qed.

Lemma minted_lookup c n i :
  i < n → minted c n !! i = Some ("v" +:+ pretty (c + N.of_nat i)%N).
Proof.
  revert c i. induction n as [|n IH]; intros c [|i] Hi; simpl; try lia.
  - by rewrite N.add_0_r.
  - rewrite IH by lia. do 3 f_equal. lia.
Qed.

Lemma renaming_lookup names c i name :
  names !! i = Some name →
  zip_with renaming names (minted c (length names)) !! i
  = Some (match nkind name with
          | KEffect =>
              SubEffect (nname name) (EQuantified ("v" +:+ pretty (c + N.of_nat i)%N))
          | KVariable =>
              SubVariable (nname name) (VQuantified ("v" +:+ pretty (c + N.of_nat i)%N))
          end).
Proof.
  intros Hname. rewrite lookup_zip_with, Hname. simpl.
  rewrite minted_lookup by by eapply lookup_lt_Some. simpl.
  unfold renaming. by destruct (nkind name).
Qed.

(** C5. Fresh instances.  While the counter of [v] stays within the
    limit of exact numbers, [newInstance] binds the [i]-th name of
    [effectNames] to the quantified name [v<c + i>], of the kind of the
    name, where [c] is the counter of [v] before: these are the names
    that [freshVar('v')] returns one after the other, the name of no
    other value of the counter, and not returned again by a later call.
    It returns the effect with that renaming applied.  The bindings
    handed to [compose] with the running substitution are exactly those
    whose original name starts with [e_], the convention of lambda
    parameters; when [compose] succeeds its result is the running
    substitution afterwards, otherwise the running substitution is
    kept; the effects and the errors are left alone.  For a signature
    none of whose names starts with [e_], as a builtin's, the list
    composed is empty: its renaming is not kept. *)
Theorem newInstance_renaming `{Imports} st effect :
  let names := effectNames effect in
  let c := counterOf st "v" in
  let subs := zip_with renaming names (minted c (length names)) in
  let st1 := afterFresh (length names) st in
  let st' :=
    match compose (filter lambdaIntroduced subs) (substitutions st) with
    | Right s => setSubstitutions s st1
    | Left _ => st1
    end in
  (c + N.of_nat (length names) ≤ counterLimit)%N →
  newInstance effect st
  = match applySubstitution subs effect with
    | Right e => Ok (e, st')
    | Left err =>
        Throw ("Error applying fresh names substitution: "
               +:+ errorTreeToString err +:+ " ")
    end
  ∧ length subs = length names
  ∧ (∀ i name,
       names !! i = Some name →
       subs !! i
       = Some (match nkind name with
               | KEffect =>
                   SubEffect (nname name)
                     (EQuantified ("v" +:+ pretty (c + N.of_nat i)%N))
               | KVariable =>
                   SubVariable (nname name)
                     (VQuantified ("v" +:+ pretty (c + N.of_nat i)%N))
               end))
  ∧ subName <$> subs = nname <$> names
  ∧ freshCalls st
      ((λ i, ("v", "v" +:+ pretty (c + N.of_nat i)%N)) <$> seq 0 (length names)) st1
  ∧ (∀ s, s ∈ filter lambdaIntroduced subs
          ↔ s ∈ subs ∧ String.prefix "e_" (subName s) = true)
  ∧ (∀ s, compose (filter lambdaIntroduced subs) (substitutions st) = Right s →
          substitutions st' = s)
  ∧ (∀ err, compose (filter lambdaIntroduced subs) (substitutions st) = Left err →
            substitutions st' = substitutions st)
  ∧ effects st' = effects st
  ∧ errors st' = errors st
  ∧ ((∀ n, n ∈ names → String.prefix "e_" (nname n) = false) →
     filter lambdaIntroduced subs = []
     ∧ (compose [] (substitutions st) = Right (substitutions st) →
        substitutions st' = substitutions st))
  ∧ counterOf st' "v" = (c + N.of_nat (length names))%N
  ∧ (∀ i (k : N),
       i < length names → k ≠ (c + N.of_nat i)%N →
       "v" +:+ pretty k ≠ "v" +:+ pretty (c + N.of_nat i)%N)
  ∧ (∀ st2 name st3 i,
       (counterOf st' "v" ≤ counterOf st2 "v" ≤ counterLimit)%N →
       freshVar "v" st2 = Ok (name, st3) →
       i < length names →
       name ≠ "v" +:+ pretty (c + N.of_nat i)%N).
Proof.
  intros names c subs st1 st' Hlimit.
  assert (subName <$> subs = nname <$> names) as Hnames.
  { apply subName_renaming. by rewrite length_minted. }
  assert (counterOf st' "v" = (c + N.of_nat (length names))%N) as Hcounter.
  { unfold st'. destruct (compose _ _); apply counterOf_afterFresh. }
  assert (∀ i (k : N),
            k ≠ (c + N.of_nat i)%N →
            "v" +:+ pretty k ≠ "v" +:+ pretty (c + N.of_nat i)%N) as Hapart.
  { intros i k Hk Heq. by apply (inj (String.app "v")), (inj pretty) in Heq. }
  split_and!.
  - apply newInstance_eq.
  - unfold subs. rewrite length_zip_with, length_minted. lia.
  - intros i name Hname. by apply renaming_lookup.
  - done.
  - replace ((λ i, ("v", "v" +:+ pretty (c + N.of_nat i)%N)) <$> seq 0 (length names))
      with ((λ v, ("v", v)) <$> minted c (length names)); [apply freshCalls_minted|].
    apply list_eq. intros i. rewrite !list_lookup_fmap.
    destruct (decide (i < length names)) as [Hi|Hi].
    + by rewrite minted_lookup, lookup_seq_lt by done.
    + rewrite (lookup_ge_None_2 (minted _ _)) by (rewrite length_minted; lia).
      by rewrite (lookup_ge_None_2 (seq _ _)) by (rewrite length_seq; lia).
  - intros s. rewrite list_elem_of_filter. unfold lambdaIntroduced.
    rewrite Is_true_true. tauto.
  - intros s Hs. unfold st'. by rewrite Hs.
  - intros err Herr. unfold st'. rewrite Herr. unfold st1.
    by destruct (length names).
  - unfold st'. destruct (compose _ _); unfold st1; by destruct (length names).
  - unfold st'. destruct (compose _ _); unfold st1; by destruct (length names).
  - intros Hbuiltin.
    assert (filter lambdaIntroduced subs = []) as Hnil.
    { destruct (filter lambdaIntroduced subs) as [|s l] eqn:Hf; [done|]. exfalso.
      assert (s ∈ filter lambdaIntroduced subs) as [Hl Hs]%list_elem_of_filter
        by (rewrite Hf; left).
      assert (subName s ∈ nname <$> names) as (n & Hn & Hin)%list_elem_of_fmap.
      { rewrite <- Hnames. by apply list_elem_of_fmap_2. }
      unfold lambdaIntroduced in Hl. rewrite Hn, (Hbuiltin _ Hin) in Hl. done. }
    split; [done|]. intros Hid. unfold st'. rewrite Hnil, Hid. simpl.
    unfold st1. by destruct (length names).
  - done.
  - intros i k _. apply Hapart.
  - intros st2 name st3 i [Hlater _] [= <- _] Hi. apply Hapart.
    fold (counterOf st2 "v"). lia.
Qed.

(** ** Applications *)

Lemma effectsGet_ext st st' id :
  effects st' = effects st → effectsGet st' id = effectsGet st id.
Proof. unfold effectsGet. by intros ->. Qed.

Lemma argEffects_ok st args params :
  Forall2 (λ a e, effectsGet st (exId a) = Some e) args params →
  argEffects args st = Ok (params, st).
Proof.
  unfold argEffects. induction 1 as [|a e args params Ha _ IH]; [done|].
  simpl. unfold bind at 1 2, gets. rewrite Ha. unfold ret at 1.
  rewrite (bind_Ok_eq _ _ _ _ _ IH). reflexivity.
Qed.

(** C1. The application rule on success.  With no error recorded and an
    effect stored for every argument, when the fetched signature unifies
    with [Arrow(params = the arguments' effects, result = fresh
    variable)], the unifier composes with the running substitution and
    the composition applies to the result variable, [exitApp] makes the
    composition the running substitution, replaces every stored effect
    by the composition applied to it (the entry is kept where the
    application fails, and no key is added or removed), and sets the
    node's effect to the composition applied to the result variable. *)
Theorem exitApp_success `{Imports} builtinSignatures
    st id opcode args signature st1 params s s' e :
  errors st = ∅ →
  fetchSignature builtinSignatures opcode id (length args) st
  = Ok (Right signature, st1) →
  Forall2 (λ a e, effectsGet st (exId a) = Some e) args params →
  allDefined (effects st) = true →
  let name := "e" +:+ pretty (counterOf st1 "e") in
  unify signature (EArrow params (EQuantified name)) = Right s →
  compose s (substitutions st1) = Right s' →
  applySubstitution s' (EQuantified name) = Right e →
  ∃ st',
    exitApp builtinSignatures id opcode args st = Ok (tt, st')
    ∧ substitutions st' = s'
    ∧ effects st' = <[id := Some e]> (rewriteEffect s' <$> effects st)
    ∧ (∀ k eff eff',
         k ≠ id →
         effects st !! k = Some (Some eff) →
         applySubstitution s' eff = Right eff' →
         effects st' !! k = Some (Some eff'))
    ∧ effectsGet st' id = Some e
    ∧ errors st' = ∅.
Proof.
  intros Herr Hfetch Hargs Hdef name Hunify Hcompose Happly.
  pose proof (keeps_effects_fetchSignature _ _ _ _ _ _ _ Hfetch) as Heff.
  pose proof (keeps_errors_fetchSignature _ _ _ _ _ _ _ Hfetch) as Herr1.
  set (st2 := setFreshVarCounters
                (<["e" := (counterOf st1 "e" + 1)%N]> (freshVarCounters st1)) st1).
  assert (argEffects args st2 = Ok (params, st2)) as Hparams.
  { apply argEffects_ok. eapply Forall2_impl; [done|]. intros a e' <-.
    apply effectsGet_ext. by rewrite <- Heff. }
  exists (setEffects (<[id := Some e]> (rewriteEffect s' <$> effects st))
            (setSubstitutions s' st2)).
  split; [|split; [done|split; [done|split; [|split]]]].
  - unfold exitApp. rewrite bool_decide_false
      by (rewrite Herr, map_size_empty; lia).
    rewrite (bind_Ok_eq _ _ _ _ _ Hfetch).
    rewrite (bind_Ok_eq _ _ _ _ _ (freshVar_eq "e" st1)). fold name st2.
    rewrite (bind_Ok_eq _ _ _ _ _ Hparams).
    unfold bind at 1, gets. simpl substitutions.
    rewrite Hunify. simpl chain. rewrite Hcompose.
    unfold bind, modify, rewriteEffects, ret, effectsSet. simpl.
    rewrite Heff, Hdef, Happly. reflexivity.
  - intros k eff eff' Hk Hlook Heff'. simpl.
    rewrite lookup_insert_ne by done. rewrite lookup_fmap, Hlook. simpl.
    by rewrite Heff'.
  - unfold effectsGet. simpl. by rewrite lookup_insert_eq.
  - simpl. by rewrite Herr1.
Qed.

(** ** Let *)

Lemma setSubstitutions_id st : setSubstitutions (substitutions st) st = st.
Proof. by destruct st. Qed.

Lemma newInstance_closed `{Imports} st effect :
  effectNames effect = [] →
  applySubstitution [] effect = Right effect →
  compose [] (substitutions st) = Right (substitutions st) →
  newInstance effect st = Ok (effect, st).
Proof.
  intros Hnames Happly Hcompose.
  rewrite newInstance_eq, Hnames. simpl. rewrite Happly, filter_nil, Hcompose.
  by rewrite setSubstitutions_id.
Qed.

(** C6. Let-in and let transparency.  With no error recorded, [exitLet]
    sets the effect of the let-in node to the effect stored for its
    trailing expression, unchanged; with an error recorded anywhere it
    changes nothing: no effect is set and no error is added.  For [val y = x] followed by
    [y]: [exitOpDef] stores the effect of [x] under the definition of
    [y], and the use of [y], resolved to that definition, gets a fresh
    instance ([newInstance]) of it, which is the effect of [x] itself
    when that effect has no quantified name. *)
Theorem let_propagation `{Imports} builtinSignatures :
  (∀ st id expr,
     errors st = ∅ →
     ∃ st', exitLet id expr st = Ok (tt, st')
            ∧ effects st' = <[id := effectsGet st (exId expr)]> (effects st)
            ∧ effectsGet st' id = effectsGet st (exId expr)
            ∧ errors st' = ∅)
  ∧ (∀ st id expr, errors st ≠ ∅ → exitLet id expr st = Ok (tt, st))
  ∧ (∀ st defId body ex,
       effectsGet st (exId body) = Some ex →
       exitOpDef defId body st
       = Ok (tt, setEffects (<[defId := Some ex]> (effects st)) st))
  ∧ (∀ st table id y def k defId ex,
       currentTable st = Some table →
       builtinSignatures !! y = None →
       lookupValue table (currentScopeTree st) y id = Some def →
       kind def = KOther k →
       truthyId (reference def) = Some defId →
       effects st !! defId = Some (Some ex) →
       exitName builtinSignatures id y st
       = bind (newInstance ex) (λ e, effectsSet id (Some e)) st
       ∧ (effectNames ex = [] →
          applySubstitution [] ex = Right ex →
          compose [] (substitutions st) = Right (substitutions st) →
          exitName builtinSignatures id y st
          = Ok (tt, setEffects (<[id := Some ex]> (effects st)) st))).
Proof.
  split; [|split; [|split]].
  - intros st id expr Herr. eexists. split.
    + unfold exitLet. rewrite bool_decide_false
        by (rewrite Herr, map_size_empty; lia).
      reflexivity.
    + split; [done|]. split; [|done].
      unfold effectsGet at 1. simpl. by rewrite lookup_insert_eq.
  - intros st id expr Herr. unfold exitLet.
    by rewrite bool_decide_true by by apply errors_size_pos.
  - intros st defId body ex Hex. unfold exitOpDef. by rewrite Hex.
  - intros st table id y def k defId ex Htable Hb Hdef Hkind Href Hex.
    assert (exitName builtinSignatures id y st
            = bind (newInstance ex) (λ e, effectsSet id (Some e)) st) as Hname.
    { rewrite (exitName_resolved _ _ _ Htable _ _ _ Hdef), Hkind.
      unfold fetchSignature. rewrite Hb.
      unfold bind, gets, lookup, ret. rewrite Htable, Hdef. simpl. rewrite Href.
      unfold effectsHas, effectsGet. rewrite Hex.
      rewrite bool_decide_true by by eexists.
      by destruct (newInstance ex st) as [[e st1]|msg]. }
    split; [done|]. intros Hnames Happly Hcompose.
    rewrite Hname. by rewrite (bind_Ok_eq _ _ _ _ _ (newInstance_closed _ _ Hnames Happly Hcompose)).
Qed.

(** ** The guards of [exitApp] and the failures of [fetchSignature] *)

(** [exitApp] tests the whole error map: once any node has an error,
    every application is skipped, whoever its arguments are. *)
Lemma exitApp_skips `{Imports} builtinSignatures st id opcode args :
  errors st ≠ ∅ →
  exitApp builtinSignatures id opcode args st = Ok (tt, st).
Proof.
  intros Hne. unfold exitApp.
  by rewrite bool_decide_true by by apply errors_size_pos.
Qed.

(** [fetchSignature] has no [Left] result: it returns [Right] or throws. *)
Lemma fetchSignature_never_Left `{Imports} builtinSignatures opcode from arity st r st' :
  fetchSignature builtinSignatures opcode from arity st = Ok (r, st') →
  ∃ e, r = Right e.
Proof.
  unfold fetchSignature.
  intros (effect & st1 & _ & (e & st2 & _ & [= <- _])%bind_Ok)%bind_Ok.
  by eexists.
Qed.

Lemma exitApp_unresolved_throws `{Imports} builtinSignatures st table id opcode args :
  errors st = ∅ →
  currentTable st = Some table →
  builtinSignatures !! opcode = None →
  match truthyId (lookupValue table (currentScopeTree st) opcode id ≫= reference) with
  | Some r => effects st !! r = None
  | None => True
  end →
  exitApp builtinSignatures id opcode args st
  = Throw ("Signature not found for name: " +:+ opcode).
Proof.
  intros Herr Htable Hb Hun. unfold exitApp.
  rewrite bool_decide_false by (rewrite Herr, map_size_empty; lia).
  unfold fetchSignature. rewrite Hb.
  unfold bind, gets, lookup. rewrite Htable.
  destruct (truthyId _) as [r|]; [|done].
  unfold effectsHas. rewrite Hun.
  by rewrite bool_decide_false by by intros [? ?].
Qed.

(** X5. A failure of [unify], or of [compose] after it, is recorded at
    the node, wrapped with the location of the application; the running
    substitution and the stored effects stay as they were. *)
Lemma exitApp_records_failure `{Imports} builtinSignatures
    st id opcode args signature st1 params err :
  errors st = ∅ →
  fetchSignature builtinSignatures opcode id (length args) st
  = Ok (Right signature, st1) →
  Forall2 (λ a e, effectsGet st (exId a) = Some e) args params →
  chain (unify signature
           (EArrow params (EQuantified ("e" +:+ pretty (counterOf st1 "e")))))
        (λ s, compose s (substitutions st1)) = Left err →
  ∃ st',
    exitApp builtinSignatures id opcode args st = Ok (tt, st')
    ∧ errors st'
      = {[id := mkErrorTree None
                  ("Trying to infer effect for operator application in "
                   +:+ expressionToString (TntApp id opcode args)) [err]]}
    ∧ effects st' = effects st
    ∧ substitutions st' = substitutions st1.
Proof.
  intros Herr Hfetch Hargs Hfail.
  pose proof (keeps_effects_fetchSignature _ _ _ _ _ _ _ Hfetch) as Heff.
  pose proof (keeps_errors_fetchSignature _ _ _ _ _ _ _ Hfetch) as Herr1.
  set (st2 := setFreshVarCounters
                (<["e" := (counterOf st1 "e" + 1)%N]> (freshVarCounters st1)) st1).
  assert (argEffects args st2 = Ok (params, st2)) as Hparams.
  { apply argEffects_ok. eapply Forall2_impl; [done|]. intros a e' <-.
    apply effectsGet_ext. by rewrite <- Heff. }
  eexists. split.
  - unfold exitApp. rewrite bool_decide_false
      by (rewrite Herr, map_size_empty; lia).
    rewrite (bind_Ok_eq _ _ _ _ _ Hfetch).
    rewrite (bind_Ok_eq _ _ _ _ _ (freshVar_eq "e" st1)). fold st2.
    rewrite (bind_Ok_eq _ _ _ _ _ Hparams).
    unfold bind at 1, gets. simpl substitutions. rewrite Hfail.
    reflexivity.
  - simpl. by rewrite Herr1, Herr, insert_empty.
Qed.

(** [exitApp] is the only method that writes the error map, and it is
    skipped once the map is not empty: a traversal records one error at
    most. *)
Lemma keeps_errors_argEffects args : keeps errors (argEffects args).
Proof. unfold argEffects. keeps_auto. Qed.

Lemma keeps_errors_rewriteEffects `{Imports} s : keeps errors (rewriteEffects s).
Proof.
  intros st a st'. unfold rewriteEffects.
  destruct (allDefined (effects st)); [|done]. by intros [= _ <-].
Qed.

Lemma exitApp_errors `{Imports} builtinSignatures id opcode args st st' :
  exitApp builtinSignatures id opcode args st = Ok (tt, st') →
  errors st' = errors st ∨ errors st = ∅ ∧ ∃ e, errors st' = {[id := e]}.
Proof.
  unfold exitApp. case_bool_decide as Hsize; [intros [= <-]; by left|].
  assert (errors st = ∅) as Hempty by (apply map_size_empty_iff; lia).
  intros ([m|signature] & st1 & Hfetch & Hrest)%bind_Ok;
    apply keeps_errors_fetchSignature in Hfetch.
  { injection Hrest as <-. right. split; [done|]. eexists. simpl.
    by rewrite Hfetch, Hempty, insert_empty. }
  apply bind_Ok in Hrest as (name & st2 & Hname%keeps_errors_freshVar & Hrest).
  apply bind_Ok in Hrest as (params & st3 & Hparams%keeps_errors_argEffects & Hrest).
  apply bind_Ok in Hrest as (subs & st4 & [= _ <-] & Hrest).
  apply bind_Ok in Hrest as (result & st5 & Hunify & Hrest).
  assert (errors st5 = ∅) as Hst5.
  { rewrite <- Hempty, <- Hfetch, <- Hname, <- Hparams.
    destruct (chain _ _) as [err|s]; [by injection Hunify as _ <-|].
    apply bind_Ok in Hunify as ([] & st6 & [= <-] & Hunify).
    apply bind_Ok in Hunify as ([] & st7 & Hrewrite%keeps_errors_rewriteEffects & [= _ <-]).
    by rewrite Hrewrite. }
  destruct result as [error|e]; injection Hrest as <-; simpl.
  - right. split; [done|]. eexists. by rewrite Hst5, insert_empty.
  - left. by rewrite Hst5.
Qed.

Lemma visit_errors_at_most_one `{Imports} builtinSignatures lookupTable c st st' :
  visit builtinSignatures lookupTable c st = Ok (tt, st') →
  size (errors st) ≤ 1 → size (errors st') ≤ 1.
Proof.
  intros Hvisit Hsize.
  assert (errors st' = errors st → size (errors st') ≤ 1) as Hkept by by intros ->.
  destruct c; simpl in Hvisit.
  - apply Hkept. by eapply keeps_errors_enterModuleDef.
  - apply Hkept. by eapply keeps_errors_exitModuleDef.
  - apply Hkept. by eapply keeps_errors_exitName.
  - apply exitApp_errors in Hvisit as [->|[_ [e ->]]]; [done|].
    by rewrite map_size_singleton.
  - apply Hkept. by eapply keeps_errors_effectsSet.
  - apply Hkept. by eapply keeps_errors_exitOpDef.
  - apply Hkept. by eapply keeps_errors_exitLet.
  - apply Hkept. by eapply keeps_errors_enterLambda.
  - apply Hkept. by eapply keeps_errors_exitLambda.
Qed.

Lemma inferEffects_at_most_one_error `{Imports} builtinSignatures lookupTable module visitor :
  visitorAfter builtinSignatures lookupTable module = Ok visitor →
  size (errors visitor) ≤ 1.
Proof.
  unfold visitorAfter, walkModule, walk.
  destruct (forEachM _ _ _) as [[[] st]|msg] eqn:Hwalk; [|done].
  intros [= <-].
  assert (size (errors newVisitor) ≤ 1) as Hnew by (simpl; rewrite map_size_empty; lia).
  revert Hwalk Hnew. generalize newVisitor. generalize (callbacks module).
  intros cs. induction cs as [|c cs IH]; intros st0; simpl.
  - by intros [= <-].
  - intros ([] & st1 & Hc & Hcs)%bind_Ok Hsize.
    eapply IH; [done|]. by eapply visit_errors_at_most_one.
Qed.

(** ** The substitutions of the sample implementation *)

Lemma Effect_nested_ind (P : Effect → Prop) :
  (∀ r u t, P (EConcrete r u t)) →
  (∀ n, P (EQuantified n)) →
  (∀ params result, Forall P params → P result → P (EArrow params result)) →
  ∀ e, P e.
Proof.
  intros Hconcrete Hquantified Harrow. fix IH 1.
  intros [r u t|n|params result]; [apply Hconcrete|apply Hquantified|].
  apply Harrow; [|apply IH].
  induction params as [|p params IHparams]; constructor; [apply IH|apply IHparams].
Qed.

Lemma applySubstitution_nil e : SpecModel.applySubstitution [] e = Right e.
Proof.
  induction e as [[?|?] [?|?] [?|?]|n|params result IHparams IHresult]
    using Effect_nested_ind; try reflexivity.
  simpl. rewrite IHresult.
  assert ((fix applyAll (l : list Effect) : Either ErrorTree (list Effect) :=
             match l with
             | [] => Right []
             | p :: l =>
                 chain (SpecModel.applySubstitution [] p) (λ p',
                 chain (applyAll l) (λ l', Right (p' :: l')))
             end) params = Right params) as ->; [|done].
  induction IHparams as [|p params Hp _ IH]; [done|].
  rewrite Hp. simpl. by rewrite IH.
Qed.

Lemma compose_nil subs : SpecModel.compose [] subs = Right subs.
Proof.
  unfold SpecModel.compose.
  assert (SpecModel.mapE (SpecModel.applyToBinding []) subs = Right subs) as ->.
  { induction subs as [|[n value|n [vars|m]] subs IH]; simpl; [done|..];
      rewrite ?applySubstitution_nil, IH; done. }
  simpl. by rewrite filter_nil, app_nil_r.
Qed.

(** ** The rules on the sample modules *)

Section OnSamples.
Import SpecModel Samples.
#[local] Existing Instance specImports.

Lemma freshVar_unique_witness :
  ∃ st',
    freshCalls newVisitor [("e", "e0"); ("v", "v0"); ("e", "e1")] st'
    ∧ countersExact st'
    ∧ "e0" ≠ "e1".
Proof.
  eexists. split; [|split].
  - repeat (eapply freshCalls_call; [vm_compute; reflexivity|]).
    apply freshCalls_done.
  - unfold countersExact. apply (bool_decide_unpack _). vm_compute. exact I.
  - eapply (proj2 freshVar_unique newVisitor
              [("e", "e0"); ("v", "v0"); ("e", "e1")] _ 0 2 "e").
    + repeat (eapply freshCalls_call; [vm_compute; reflexivity|]).
      apply freshCalls_done.
    + unfold countersExact. apply (bool_decide_unpack _). vm_compute. exact I.
    + reflexivity.
    + reflexivity.
    + lia.
Defined.

Lemma exitName_var_witness :
  let st := stateAfter readXTables [CEnterModuleDef readX] in
  ∃ st',
    exitName builtins 2 "x" st = Ok (tt, st')
    ∧ st' = setEffects (<[2%Z := Some (readOf "x")]> (effects st)) st
    ∧ effectsGet st' 2 = Some (readOf "x").
Proof.
  apply (exitName_var builtins _ readXTable 2 "x"
           (mkValueDefinition KVar "x" (Some 1%Z) None));
    vm_compute; reflexivity.
Defined.

Lemma exitName_operator_arity_witness :
  let st := stateAfter readXTables [CEnterModuleDef readX] in
  ∃ st',
    exitName builtins 5 "not" st = Ok (tt, st')
    ∧ effectsGet st' 5
      = Some (EArrow
                [EConcrete (VQuantified "v0") (VConcrete []) (VQuantified "v1")]
                (EConcrete (VQuantified "v0") (VConcrete []) (VQuantified "v1"))).
Proof.
  intros st.
  destruct (exitName_operator_arity builtins st readXTable 5 "not"
              (builtinDef "not") "def") as [_ Hbuiltin];
    [vm_compute; reflexivity..|].
  destruct (Hbuiltin notSignature) as [_ Hinstalled]; [vm_compute; reflexivity|].
  eexists. split.
  - apply Hinstalled. vm_compute. reflexivity.
  - vm_compute. reflexivity.
Defined.



Lemma inferEffects_result_witness :
  inferEffects builtins failSoftTables failSoft = Ok (Left {[3%Z := arityError]})
  ∧ inferEffects builtins readXTables readX
    = Ok (Right (effects (stateAfter readXTables (callbacks readX))))
  ∧ effectsGet (stateAfter readXTables (callbacks readX)) 3 = Some (readOf "x").
Proof.
  split; [|split].
  - assert (visitorAfter builtins failSoftTables failSoft
            = Ok (stateAfter failSoftTables (callbacks failSoft))) as Hafter
      by (vm_compute; reflexivity).
    destruct (inferEffects_result builtins failSoftTables failSoft _ Hafter)
      as (_ & Hleft & _).
    rewrite Hleft; [vm_compute; reflexivity|].
    intros Hempty.
    assert (errors (stateAfter failSoftTables (callbacks failSoft)) !! 3%Z = None)
      as Hnone by (rewrite Hempty; apply lookup_empty).
    vm_compute in Hnone. discriminate.
  - assert (visitorAfter builtins readXTables readX
            = Ok (stateAfter readXTables (callbacks readX))) as Hafter
      by (vm_compute; reflexivity).
    destruct (inferEffects_result builtins readXTables readX _ Hafter)
      as (_ & _ & Hright & _).
    apply Hright. vm_compute. reflexivity.
  - vm_compute. reflexivity.
Defined.

Lemma newInstance_renaming_witness :
  ∃ st',
    newInstance parameterAndRead newVisitor
    = Ok (EArrow [EQuantified "v0"]
                 (EConcrete (VQuantified "v1") (VConcrete []) (VConcrete [])), st')
    ∧ substitutions st' = [SubEffect "e_p_5" (EQuantified "v0")]
    ∧ counterOf st' "v" = 2%N.
Proof.
  destruct (newInstance_renaming newVisitor parameterAndRead)
    as (Heq & _ & _ & _ & _ & _ & Hkept & _ & _ & _ & _ & Hcounter & _).
  { vm_compute. discriminate. }
  eexists. split; [|split].
  - rewrite Heq. vm_compute. reflexivity.
  - apply Hkept. vm_compute. reflexivity.
  - exact Hcounter.
Defined.

Lemma exitApp_success_witness :
  let st := stateAfter readXTables [CEnterModuleDef readX; CExitName 2 "x"] in
  let composed :=
    [SubVariable "v0" (VConcrete ["x"]); SubVariable "v1" (VConcrete []);
     SubEffect "e0" (readOf "x")] in
  ∃ st',
    exitApp builtins 3 "not" [TntName 2 "x"] st = Ok (tt, st')
    ∧ substitutions st' = composed
    ∧ effects st' = <[3%Z := Some (readOf "x")]> (rewriteEffect composed <$> effects st)
    ∧ effectsGet st' 3 = Some (readOf "x")
    ∧ errors st' = ∅.
Proof.
  intros st composed.
  destruct (exitApp_success builtins st 3 "not" [TntName 2 "x"]
              (EArrow [EConcrete (VQuantified "v0") (VConcrete []) (VQuantified "v1")]
                      (EConcrete (VQuantified "v0") (VConcrete []) (VQuantified "v1")))
              (afterFresh 2 st) [readOf "x"]
              composed composed (readOf "x"))
    as (st' & Happ & Hsubs & Heffects & _ & Hnode & Herrors).
  - vm_compute. reflexivity.
  - vm_compute. reflexivity.
  - repeat constructor.
  - vm_compute. reflexivity.
  - vm_compute. reflexivity.
  - vm_compute. reflexivity.
  - vm_compute. reflexivity.
  - by exists st'.
Defined.

Lemma let_propagation_witness :
  let st := stateAfter letVarTables
              [CEnterModuleDef letVar; CExitName 2 "x";
               CExitOpDef 3 (TntName 2 "x")] in
  effectsGet st 2 = Some (readOf "x")
  ∧ exitName builtins 4 "y" st
    = Ok (tt, setEffects (<[4%Z := Some (readOf "x")]> (effects st)) st).
Proof.
  intros st. split; [vm_compute; reflexivity|].
  destruct (let_propagation builtins) as (_ & _ & _ & Huse).
  destruct (Huse st letVarTable 4%Z "y"
              (mkValueDefinition (KOther "val") "y" (Some 3%Z) (Some 5%Z))
              "val" 3%Z (readOf "x")) as [_ Hclosed];
    [vm_compute; reflexivity..|].
  apply Hclosed; [vm_compute; reflexivity|apply applySubstitution_nil|apply compose_nil].
Defined.

(** C6 does not hold for every bound expression.  In
    [def f = (p => val y = p { y })] no error is recorded, the effect
    inferred for [p] (node 1, the [x] of [val y = x]) is the
    placeholder [e_p_5] of the parameter, and the effect inferred for
    the use of [y] (node 3) is the fresh variable [v0]: the use of [y]
    gets a fresh instance of the effect of [x], not that effect. *)
Lemma let_transparency_counterexample :
  let final := visitorAfter builtins letInLambdaTables letInLambda in
  (∃ visitor, final = Ok visitor ∧ errors visitor = ∅)
  ∧ effectAt final 1 = Some (EQuantified "e_p_5")
  ∧ effectAt final 3 = Some (EQuantified "v0")
  ∧ effectAt final 3 ≠ effectAt final 1.
Proof.
  intros final. split; [|split; [|split]].
  - vm_compute. eexists. split; reflexivity.
  - vm_compute. reflexivity.
  - vm_compute. reflexivity.
  - vm_compute. discriminate.
Qed.

(** C2, on [def bad = not(true, false)  def good = not(true)].  The
    arity error of [bad] is recorded at node 3.  The argument of the
    call in [good] (node 5) has the pure effect and no error, yet the
    call itself (node 6) gets neither an effect nor an error:
    [exitApp] skips it because the error map is not empty.  With the
    two definitions in the other order the same call gets the pure
    effect. *)
Theorem exitApp_skipped_after_unrelated_error :
  let final := visitorAfter builtins failSoftTables failSoft in
  errorAt final 3 = Some arityError
  ∧ effectAt final 5 = Some pure
  ∧ errorAt final 5 = None
  ∧ effectAt final 6 = None
  ∧ errorAt final 6 = None
  ∧ effectAt (visitorAfter builtins failSoftTables failLast) 6 = Some pure.
Proof. vm_compute. repeat split. Qed.

(** C3, on [def a = undefinedOp(1)] with no definition and no builtin
    signature of [undefinedOp]: [inferEffects] returns no error map,
    [fetchSignature] throws. *)
Theorem undefined_operator_throws :
  inferEffects builtins undefinedNameTables undefinedName
  = Throw "Signature not found for name: undefinedOp".
Proof. vm_compute. reflexivity. Qed.

End OnSamples.

(** ** The scan for conflicting definitions *)

Lemma filter_length_pos {A} (P : A → Prop) `{∀ x, Decision (P x)} (l : list A) x :
  x ∈ l → P x → 0 < length (filter P l).
Proof.
  intros Hin HP.
  assert (x ∈ filter P l) as Hx by by apply list_elem_of_filter.
  destruct (filter P l); [by apply elem_of_nil in Hx|simpl; lia].
Qed.

Lemma filter_length_two {A} (P : A → Prop) `{∀ x, Decision (P x)} (l : list A) i j x y :
  l !! i = Some x → l !! j = Some y → i ≠ j → P x → P y →
  1 < length (filter P l).
Proof.
  revert i j. induction l as [|a l IH]; intros i j Hi Hj Hij Hx Hy; [done|].
  destruct i as [|i], j as [|j]; simpl in *; simplify_eq.
  - rewrite filter_cons_True by done. simpl.
    pose proof (filter_length_pos P l y (list_elem_of_lookup_2 _ _ _ Hj) Hy). lia.
  - rewrite filter_cons_True by done. simpl.
    pose proof (filter_length_pos P l x (list_elem_of_lookup_2 _ _ _ Hi) Hx). lia.
  - assert (1 < length (filter P l)) by (eapply (IH i j); eauto).
    rewrite filter_cons. destruct (decide (P a)); simpl; lia.
Qed.

#[local] Set Warnings "-clear-no-such-hyp".

Section ScanStep.
Context {A : Type} (ident : A → string) (count : A → nat) (report : A → Conflict).
Hypothesis report_ident : ∀ a, conflictIdentifier (report a) = ident a.

Lemma scanStep_foldl l reported conflicts :
  ∃ new,
    (foldl (scanStep ident count report) (reported, conflicts) l).2 = conflicts ++ new
    ∧ NoDup (conflictIdentifier <$> new)
    ∧ (∀ x, x ∈ conflictIdentifier <$> new
            ↔ (x ∉ reported) ∧ ∃ a, a ∈ l ∧ ident a = x ∧ 1 < count a)
    ∧ (∀ x, x ∈ (foldl (scanStep ident count report) (reported, conflicts) l).1
            ↔ x ∈ reported ∨ ∃ a, a ∈ l ∧ ident a = x ∧ 1 < count a)
    ∧ (∀ c, c ∈ new → ∃ a, a ∈ l ∧ 1 < count a ∧ c = report a).
Proof using report_ident.
  revert reported conflicts.
  induction l as [|a l IH]; intros reported conflicts; simpl.
  { exists []. rewrite app_nil_r. split; [done|]. split; [constructor|].
    split; [|split]; intros x; rewrite ?elem_of_nil; set_solver. }
  unfold scanStep at 2 4. simpl.
  case_bool_decide as Hrep; [|case_bool_decide as Hbig].
  - destruct (IH reported conflicts) as (new & Heq & Hdup & Hnew & Hrep' & Hsrc).
    exists new. split; [done|]. split; [done|]. split; [|split].
    + intros x. rewrite Hnew. setoid_rewrite elem_of_cons. naive_solver.
    + intros x. rewrite Hrep'. setoid_rewrite elem_of_cons. naive_solver.
    + intros c Hc. destruct (Hsrc c Hc) as (a' & ? & ? & ?).
      exists a'. by rewrite elem_of_cons; auto.
  - destruct (IH ({[ident a]} ∪ reported) (conflicts ++ [report a]))
      as (new & Heq & Hdup & Hnew & Hrep' & Hsrc).
    exists (report a :: new). split; [by rewrite Heq, <- app_assoc|].
    split; [|split; [|split]].
    + rewrite fmap_cons. constructor; [|done].
      rewrite report_ident, Hnew. set_solver.
    + intros x. rewrite fmap_cons, elem_of_cons, report_ident, Hnew.
      setoid_rewrite elem_of_cons.
      destruct (decide (x = ident a)) as [->|Hne]; [naive_solver|].
      split; [intros [?|[Hx ?]]; [done|]; split; [set_solver|naive_solver]|].
      intros [Hx (a' & [->|?] & ? & ?)]; [done|].
      right. split; [set_solver|naive_solver].
    + intros x. rewrite Hrep'. setoid_rewrite elem_of_cons.
      rewrite elem_of_union, elem_of_singleton. naive_solver.
    + intros c [->|Hc]%elem_of_cons.
      * exists a. by rewrite elem_of_cons; auto.
      * destruct (Hsrc c Hc) as (a' & ? & ? & ?).
        exists a'. by rewrite elem_of_cons; auto.
  - destruct (IH reported conflicts) as (new & Heq & Hdup & Hnew & Hrep' & Hsrc).
    exists new. split; [done|]. split; [done|]. split; [|split].
    + intros x. rewrite Hnew. setoid_rewrite elem_of_cons. naive_solver.
    + intros x. rewrite Hrep'. setoid_rewrite elem_of_cons. naive_solver.
    + intros c Hc. destruct (Hsrc c Hc) as (a' & ? & ? & ?).
      exists a'. by rewrite elem_of_cons; auto.
Qed.

End ScanStep.

Lemma filter_length_two_inv {A} (P : A → Prop) `{∀ x, Decision (P x)} (l : list A) :
  1 < length (filter P l) →
  ∃ i j x y, i ≠ j ∧ l !! i = Some x ∧ l !! j = Some y ∧ P x ∧ P y.
Proof.
  induction l as [|a l IH]; [simpl; lia|].
  rewrite filter_cons. destruct (decide (P a)) as [Ha|Ha]; simpl; intros Hlen.
  - destruct (filter P l) as [|y l'] eqn:Hf; [simpl in Hlen; lia|].
    assert (y ∈ filter P l) as [Hy [j Hj]%list_elem_of_lookup_1]%list_elem_of_filter
      by (rewrite Hf; left).
    exists 0, (S j), a, y. done.
  - destruct (IH Hlen) as (i & j & x & y & Hij & Hi & Hj & Hx & Hy).
    exists (S i), (S j), x, y. split; [lia|done].
Qed.

Section ConflictScan.
Variable scopesForId : ScopeTree → Z → list Z.
Variable tree : ScopeTree.

#[local] Abbreviation namesOf := (conflictingNames scopesForId tree).

Lemma scanName_eq defs :
  scanName scopesForId tree defs
  = scanStep identifier (λ d, length (namesOf defs d)) (reportName scopesForId tree defs).
Proof. reflexivity. Qed.

Lemma scanType_eq defs :
  scanType defs
  = scanStep typeIdentifier (λ d, length (conflictingTypes defs d)) (reportType defs).
Proof. reflexivity. Qed.

(** The conflicts of a table: the operator conflicts in the order of
    the name definitions, then the type conflicts.  Each conflict is
    the report of a definition with more than one conflicting
    definition, and every such definition has its identifier reported
    once. *)
Lemma scan_conflicts table :
  ∃ operators types,
    scanTypes (typeDefinitions table)
      (scanNames scopesForId tree (nameDefinitions table)) = operators ++ types
    ∧ NoDup (conflictIdentifier <$> operators)
    ∧ NoDup (conflictIdentifier <$> types)
    ∧ (∀ c, c ∈ operators →
         ∃ def, def ∈ nameDefinitions table
                ∧ 1 < length (namesOf (nameDefinitions table) def)
                ∧ c = reportName scopesForId tree (nameDefinitions table) def)
    ∧ (∀ def, def ∈ nameDefinitions table →
              1 < length (namesOf (nameDefinitions table) def) →
              identifier def ∈ conflictIdentifier <$> operators)
    ∧ (∀ c, c ∈ types →
         ∃ def, def ∈ typeDefinitions table
                ∧ 1 < length (conflictingTypes (typeDefinitions table) def)
                ∧ c = reportType (typeDefinitions table) def)
    ∧ (∀ def, def ∈ typeDefinitions table →
              1 < length (conflictingTypes (typeDefinitions table) def) →
              typeIdentifier def ∈ conflictIdentifier <$> types).
Proof.
  unfold scanTypes, scanNames. rewrite scanName_eq, scanType_eq.
  destruct (scanStep_foldl identifier
              (λ d, length (namesOf (nameDefinitions table) d))
              (reportName scopesForId tree (nameDefinitions table))
              (λ _, eq_refl) (nameDefinitions table) ∅ [])
    as (operators & -> & Hdup1 & Hin1 & _ & Hsrc1).
  simpl.
  destruct (scanStep_foldl typeIdentifier
              (λ d, length (conflictingTypes (typeDefinitions table) d))
              (reportType (typeDefinitions table))
              (λ _, eq_refl) (typeDefinitions table) ∅ operators)
    as (types & -> & Hdup2 & Hin2 & _ & Hsrc2).
  exists operators, types. split; [done|]. split; [done|]. split; [done|].
  split; [exact Hsrc1|]. split; [|split; [exact Hsrc2|]].
  - intros def Hdef Hbig. apply Hin1. split; [set_solver|]. by exists def.
  - intros def Hdef Hbig. apply Hin2. split; [set_solver|]. by exists def.
Qed.

Lemma scanConflicts_accepts table :
  (∀ def, def ∈ nameDefinitions table →
          length (namesOf (nameDefinitions table) def) ≤ 1) →
  (∀ def, def ∈ typeDefinitions table →
          length (conflictingTypes (typeDefinitions table) def) ≤ 1) →
  scanConflicts scopesForId tree table = ConflictsOk.
Proof.
  intros Hsmall1 Hsmall2. unfold scanConflicts.
  destruct (scan_conflicts table)
    as (operators & types & -> & _ & _ & Hops & _ & Htys & _).
  rewrite bool_decide_false; [done|].
  destruct operators as [|c ?].
  - destruct types as [|c ?]; [simpl; lia|].
    destruct (Htys c) as (def & Hdef & Hbig & _); [left|].
    specialize (Hsmall2 def Hdef). lia.
  - destruct (Hops c) as (def & Hdef & Hbig & _); [left|].
    specialize (Hsmall1 def Hdef). lia.
Qed.

(** X13. The scan succeeds exactly on the tables in which no definition
    has more than one definition conflicting with it, the definition
    itself included: names by identifier and [canConflict], types by
    identifier alone. *)
Theorem scanConflicts_ok_iff table :
  scanConflicts scopesForId tree table = ConflictsOk
  ↔ (∀ def, def ∈ nameDefinitions table →
            length (namesOf (nameDefinitions table) def) ≤ 1)
    ∧ (∀ def, def ∈ typeDefinitions table →
              length (conflictingTypes (typeDefinitions table) def) ≤ 1).
Proof.
  split; [|by intros [??]; apply scanConflicts_accepts].
  unfold scanConflicts.
  destruct (scan_conflicts table)
    as (operators & types & -> & _ & _ & _ & Hnames & _ & Htypes).
  case_bool_decide as Hlen; [done|]. intros _.
  destruct operators, types; simpl in Hlen; try lia.
  split; intros def Hdef; apply Nat.nlt_ge; intros Hbig.
  - eapply elem_of_nil, (Hnames def); done.
  - eapply elem_of_nil, (Htypes def); done.
Qed.

(** X14. The conflicts of a failed scan: there is at least one; no two
    of them have the same kind and identifier; each one lists two
    sources or more, one per conflicting definition, and comes from a
    definition of the table of its kind. *)
Theorem scanConflicts_error table conflicts :
  scanConflicts scopesForId tree table = ConflictsError conflicts →
  conflicts ≠ []
  ∧ NoDup ((λ c, (conflictKind c, conflictIdentifier c)) <$> conflicts)
  ∧ ∀ c, c ∈ conflicts →
      1 < length (conflictSources c)
      ∧ match conflictKind c with
        | ConflictOperator =>
            ∃ def, def ∈ nameDefinitions table
                   ∧ c = reportName scopesForId tree (nameDefinitions table) def
        | ConflictType =>
            ∃ def, def ∈ typeDefinitions table
                   ∧ c = reportType (typeDefinitions table) def
        end.
Proof.
  unfold scanConflicts.
  destruct (scan_conflicts table)
    as (operators & types & -> & Hdup1 & Hdup2 & Hops & _ & Htys & _).
  case_bool_decide as Hlen; [|done]. intros [= <-].
  assert (∀ c, c ∈ operators → conflictKind c = ConflictOperator) as Hkind1.
  { intros c (def & _ & _ & ->)%Hops. done. }
  assert (∀ c, c ∈ types → conflictKind c = ConflictType) as Hkind2.
  { intros c (def & _ & _ & ->)%Htys. done. }
  split; [by intros Hnil; rewrite Hnil in Hlen; simpl in Hlen; lia|]. split.
  - rewrite fmap_app. apply NoDup_app. split; [|split].
    + apply (NoDup_fmap_1 snd). rewrite <- list_fmap_compose. exact Hdup1.
    + intros [k x] (c1 & [= -> ->] & Hc1)%list_elem_of_fmap
        (c2 & [= Hk _] & Hc2)%list_elem_of_fmap.
      rewrite (Hkind1 _ Hc1), (Hkind2 _ Hc2) in Hk. done.
    + apply (NoDup_fmap_1 snd). rewrite <- list_fmap_compose. exact Hdup2.
  - intros c [Hc|Hc]%elem_of_app.
    + destruct (Hops c Hc) as (def & Hdef & Hbig & ->). simpl.
      rewrite length_fmap. eauto.
    + destruct (Htys c Hc) as (def & Hdef & Hbig & ->). simpl.
      rewrite length_fmap. eauto.
Qed.

Lemma scanConflicts_reports_name table def :
  def ∈ nameDefinitions table →
  1 < length (namesOf (nameDefinitions table) def) →
  ∃ conflicts,
    scanConflicts scopesForId tree table = ConflictsError conflicts
    ∧ ∃ c, c ∈ conflicts ∧ conflictKind c = ConflictOperator
           ∧ conflictIdentifier c = identifier def.
Proof.
  intros Hdef Hbig. unfold scanConflicts.
  destruct (scan_conflicts table)
    as (operators & types & -> & _ & _ & Hops & Hnames & _).
  destruct (proj1 (list_elem_of_fmap _ _ _) (Hnames def Hdef Hbig))
    as (c & Hid & Hin).
  rewrite bool_decide_true.
  - eexists. split; [done|]. exists c. split; [by apply elem_of_app; left|].
    split; [|done]. by destruct (Hops c Hin) as (def' & _ & _ & ->).
  - rewrite length_app. destruct operators; [by apply elem_of_nil in Hin|simpl; lia].
Qed.

Lemma scanConflicts_reports_type table def :
  def ∈ typeDefinitions table →
  1 < length (conflictingTypes (typeDefinitions table) def) →
  ∃ conflicts,
    scanConflicts scopesForId tree table = ConflictsError conflicts
    ∧ ∃ c, c ∈ conflicts ∧ conflictKind c = ConflictType
           ∧ conflictIdentifier c = typeIdentifier def.
Proof.
  intros Hdef Hbig. unfold scanConflicts.
  destruct (scan_conflicts table)
    as (operators & types & -> & _ & _ & _ & _ & Htys & Htypes).
  destruct (proj1 (list_elem_of_fmap _ _ _) (Htypes def Hdef Hbig))
    as (c & Hid & Hin).
  rewrite bool_decide_true.
  - eexists. split; [done|]. exists c. split; [by apply elem_of_app; right|].
    split; [|done]. by destruct (Htys c Hin) as (def' & _ & _ & ->).
  - rewrite length_app. destruct types; [by apply elem_of_nil in Hin|simpl; lia].
Qed.

(** X15. A name with a definition that has no scope (as a builtin or a
    module-level definition) and any other definition is reported as an
    operator conflict, wherever the other definition is scoped. *)
Theorem unscoped_duplicate_reported table i j d1 d2 :
  nameDefinitions table !! i = Some d1 →
  nameDefinitions table !! j = Some d2 →
  i ≠ j →
  identifier d2 = identifier d1 →
  truthyId (scope d1) = None →
  ∃ conflicts,
    scanConflicts scopesForId tree table = ConflictsError conflicts
    ∧ ∃ c, c ∈ conflicts ∧ conflictKind c = ConflictOperator
           ∧ conflictIdentifier c = identifier d1.
Proof.
  intros Hi Hj Hij Hid Hscope.
  apply scanConflicts_reports_name; [by eapply list_elem_of_lookup_2|].
  unfold conflictingNames.
  eapply (filter_length_two _ _ i j d1 d2); [done..| |].
  - split; [done|]. unfold canConflict. by rewrite Hscope.
  - split; [done|]. unfold canConflict. rewrite Hscope.
    by destruct (truthyId (scope d2)).
Qed.

(** X16. Two type definitions with the same identifier are reported as
    a type conflict: types have no scopes. *)
Theorem duplicate_type_reported table i j d1 d2 :
  typeDefinitions table !! i = Some d1 →
  typeDefinitions table !! j = Some d2 →
  i ≠ j →
  typeIdentifier d2 = typeIdentifier d1 →
  ∃ conflicts,
    scanConflicts scopesForId tree table = ConflictsError conflicts
    ∧ ∃ c, c ∈ conflicts ∧ conflictKind c = ConflictType
           ∧ conflictIdentifier c = typeIdentifier d1.
Proof.
  intros Hi Hj Hij Hid.
  apply scanConflicts_reports_type; [by eapply list_elem_of_lookup_2|].
  unfold conflictingTypes. by eapply (filter_length_two _ _ i j d1 d2).
Qed.

(** X17. Definitions of a name that cannot conflict pairwise (each with
    a scope, none of the scopes among the scopes around another) are
    not reported: with such names and no repeated type, the scan
    succeeds. *)
Theorem unrelated_scopes_accepted table :
  (∀ i j d d',
     i ≠ j →
     nameDefinitions table !! i = Some d →
     nameDefinitions table !! j = Some d' →
     identifier d = identifier d' →
     canConflict scopesForId tree d d' = false) →
  NoDup (typeIdentifier <$> typeDefinitions table) →
  scanConflicts scopesForId tree table = ConflictsOk.
Proof.
  intros Hnames Htypes. apply scanConflicts_accepts.
  - intros def [k Hk]%list_elem_of_lookup_1. apply Nat.nlt_ge. intros Hbig.
    apply filter_length_two_inv in Hbig
      as (i & j & x & y & Hij & Hi & Hj & [Hx Hcx] & [Hy Hcy]).
    destruct (decide (i = k)) as [->|Hik].
    + rewrite (Hnames j k y def) in Hcy; [done..|congruence].
    + rewrite (Hnames i k x def) in Hcx; [done..|congruence].
  - intros def Hdef. apply Nat.nlt_ge. intros Hbig.
    apply filter_length_two_inv in Hbig
      as (i & j & x & y & Hij & Hi & Hj & Hx & Hy).
    apply Hij. eapply NoDup_lookup; [exact Htypes|..].
    + by rewrite list_lookup_fmap, Hi.
    + by rewrite list_lookup_fmap, Hj; simpl; rewrite Hy, <- Hx.
Qed.

End ConflictScan.

(** ** What a traversal keeps *)

Section Steps.
Context `{Imports} (R : Visitor → Visitor → Prop) {HR : PreOrder R}.

Lemma steps_ret {A} (a : A) : steps R (ret a).
Proof using HR. by intros st a' st' [= _ <-]. Qed.

Lemma steps_throw {A} msg : steps R (throw msg : M A).
Proof. by intros st a st' ?. Qed.

Lemma steps_gets {A} (g : Visitor → A) : steps R (gets g).
Proof using HR. by intros st a st' [= _ <-]. Qed.

Lemma steps_bind {A B} (m : M A) (k : A → M B) :
  steps R m → (∀ a, steps R (k a)) → steps R (bind m k).
Proof using HR.
  intros Hm Hk st b st' (a & st1 & Hm1 & Hk1)%bind_Ok.
  etrans; [by eapply Hm|by eapply Hk].
Qed.

Lemma steps_modify (g : Visitor → Visitor) :
  (∀ st, R st (g st)) → steps R (modify g).
Proof. intros Hg st a st' [= _ <-]. apply Hg. Qed.

Lemma steps_mapM {A B} (g : A → M B) l :
  (∀ a, steps R (g a)) → steps R (mapM g l).
Proof using HR.
  intros Hg. induction l as [|a l IH]; simpl; [apply steps_ret|].
  apply steps_bind; [done|]. intros b.
  apply steps_bind; [done|]. intros bs. apply steps_ret.
Qed.

Lemma steps_forEachM {A} (g : A → M unit) l :
  (∀ a, steps R (g a)) → steps R (forEachM g l).
Proof using HR.
  intros Hg. induction l as [|a l IH]; simpl; [apply steps_ret|].
  by apply steps_bind.
Qed.

Lemma steps_lookup name from : steps R (lookup name from).
Proof using HR.
  intros st a st'. unfold lookup.
  destruct (currentTable st); [|done]. by intros [= _ <-].
Qed.

(** The relation allows the running substitution and the error map to
    be replaced, and a call of [freshVar] with the prefixes in use. *)
Hypothesis R_substitutions : ∀ s st, R st (setSubstitutions s st).
Hypothesis R_errors : ∀ m st, R st (setErrors m st).
Hypothesis R_fresh : ∀ prefix st,
  prefix = "e" ∨ prefix = "v" →
  R st (setFreshVarCounters
          (<[prefix := (counterOf st prefix + 1)%N]> (freshVarCounters st)) st).

Variable builtinSignatures : gmap string Signature.
Variable lookupTable : LookupTableByModule.

Lemma steps_freshVar prefix :
  prefix = "e" ∨ prefix = "v" → steps R (freshVar prefix).
Proof using R_fresh HR.
  intros Hprefix st a st'. rewrite freshVar_eq. intros [= _ <-]. by apply R_fresh.
Qed.

Lemma steps_errorsSet id e : steps R (errorsSet id e).
Proof using R_errors HR. apply steps_modify. intros st. apply R_errors. Qed.

Lemma steps_newInstance effect : steps R (newInstance effect).
Proof using R_substitutions R_fresh HR.
  unfold newInstance, freshBinding.
  apply steps_bind; [|intros subs; apply steps_bind; [|intros _]].
  - apply steps_mapM. intros name. apply steps_bind; [|intros v; apply steps_ret].
    apply steps_freshVar. by right.
  - apply steps_modify. intros st. destruct (compose _ _); [done|].
    apply R_substitutions.
  - destruct (applySubstitution subs effect); [apply steps_throw|apply steps_ret].
Qed.

Lemma steps_fetchSignature opcode from arity :
  steps R (fetchSignature builtinSignatures opcode from arity).
Proof using R_substitutions R_fresh HR.
  unfold fetchSignature.
  apply steps_bind; [|intros effect; apply steps_bind;
                       [apply steps_newInstance|intros e; apply steps_ret]].
  destruct (builtinSignatures !! opcode); [apply steps_ret|].
  apply steps_bind; [apply steps_lookup|intros def].
  apply steps_bind; [apply steps_gets|intros st].
  destruct (truthyId _); [|apply steps_throw].
  destruct (effectsHas st z); [|apply steps_throw].
  destruct (effectsGet st z); [apply steps_ret|apply steps_throw].
Qed.

Lemma steps_argEffects args : steps R (argEffects args).
Proof using HR.
  unfold argEffects. apply steps_mapM. intros a.
  apply steps_bind; [apply steps_gets|intros st].
  destruct (effectsGet st (exId a)); [apply steps_ret|apply steps_throw].
Qed.

Section OwnNode.
(** The callbacks that set the effect of their own node [id]. *)
Variable id : Z.
Hypothesis R_set : ∀ v st, R st (setEffects (<[id := v]> (effects st)) st).

Lemma steps_effectsSet v : steps R (effectsSet id v).
Proof using R_set HR. apply steps_modify. intros st. apply R_set. Qed.

Lemma steps_exitName name : steps R (exitName builtinSignatures id name).
Proof using R_set R_substitutions R_fresh HR.
  unfold exitName. apply steps_bind; [apply steps_lookup|intros [def|]];
    [|apply steps_throw].
  destruct (kind def); try apply steps_effectsSet.
  - apply steps_bind; [apply steps_gets|intros st].
    destruct (truthyId _); [|apply steps_throw].
    destruct (effectsHas st z); [apply steps_effectsSet|apply steps_throw].
  - apply steps_bind; [apply steps_fetchSignature|intros [m|s]];
      [apply steps_ret|apply steps_effectsSet].
Qed.

Lemma steps_exitOpDef expr : steps R (exitOpDef id expr).
Proof using R_set HR.
  intros st a st'. unfold exitOpDef.
  destruct (effectsGet st (exId expr)); [apply steps_effectsSet|].
  by intros [= _ <-].
Qed.

Lemma steps_exitLet expr : steps R (exitLet id expr).
Proof using R_set HR.
  intros st a st'. unfold exitLet.
  case_bool_decide; [by intros [= _ <-]|apply steps_effectsSet].
Qed.

Lemma steps_exitLambda params expr : steps R (exitLambda id params expr).
Proof using R_set HR.
  intros st a st'. unfold exitLambda.
  destruct (effectsGet st (exId expr)); [|by intros [= _ <-]].
  destruct (mergeInMany _); [by intros [= _ <-]|apply steps_effectsSet].
Qed.

End OwnNode.

Section AnyNode.
(** The callbacks that write other entries: [enterLambda], under the
    references of the parameters, and [exitApp], which rewrites every
    entry. *)
Hypothesis R_set : ∀ id v st, R st (setEffects (<[id := v]> (effects st)) st).
Hypothesis R_rewrite : ∀ s st, R st (setEffects (rewriteEffect s <$> effects st) st).

Lemma steps_enterLambda id params expr : steps R (enterLambda id params expr).
Proof using R_set HR.
  unfold enterLambda. apply steps_forEachM. intros p.
  apply steps_bind; [apply steps_lookup|intros def].
  destruct (truthyId _); [by apply steps_effectsSet|apply steps_ret].
Qed.

Lemma steps_rewriteEffects s : steps R (rewriteEffects s).
Proof using R_rewrite HR.
  intros st a st'. unfold rewriteEffects.
  destruct (allDefined (effects st)); [|done]. intros [= _ <-]. apply R_rewrite.
Qed.

Lemma steps_exitApp id opcode args :
  steps R (exitApp builtinSignatures id opcode args).
Proof using R_set R_rewrite R_substitutions R_errors R_fresh HR.
  intros st a st'. unfold exitApp.
  case_bool_decide as Hguard; [by intros [= _ <-]|]. clear Hguard. revert st a st'.
  apply steps_bind; [apply steps_fetchSignature|intros [m|signature]];
    [apply steps_errorsSet|].
  apply steps_bind; [apply steps_freshVar; by left|intros name].
  apply steps_bind; [apply steps_argEffects|intros params].
  apply steps_bind; [apply steps_gets|intros subs].
  apply steps_bind.
  - destruct (chain _ _); [apply steps_ret|].
    apply steps_bind; [|intros _; apply steps_bind;
                         [apply steps_rewriteEffects|intros _; apply steps_ret]].
    apply steps_modify. intros st. apply R_substitutions.
  - intros [error|e]; [apply steps_errorsSet|by apply steps_effectsSet].
Qed.

(** The callbacks of expressions and operator definitions. *)
Lemma steps_visit_inner c :
  isModuleCallback c = false → steps R (visit builtinSignatures lookupTable c).
Proof using R_set R_rewrite R_substitutions R_errors R_fresh HR.
  destruct c; simpl; try done; intros _.
  - by apply steps_exitName.
  - apply steps_exitApp.
  - by apply steps_effectsSet.
  - by apply steps_exitOpDef.
  - by apply steps_exitLet.
  - apply steps_enterLambda.
  - by apply steps_exitLambda.
Qed.

Lemma steps_walk_inner cs :
  Forall (λ c, isModuleCallback c = false) cs →
  steps R (walk builtinSignatures lookupTable cs).
Proof using R_set R_rewrite R_substitutions R_errors R_fresh HR.
  induction 1 as [|c cs Hc _ IH]; [apply steps_ret|].
  apply steps_bind; [by apply steps_visit_inner|done].
Qed.

(** The callbacks of modules, for a relation that allows the traversal
    context to change. *)
Hypothesis R_stack : ∀ l st, R st (setModuleStack l st).
Hypothesis R_current : ∀ m t tree st, R st (setCurrent m t tree st).

Lemma steps_updateCurrentModule : steps R (updateCurrentModule lookupTable).
Proof using R_current HR.
  intros st a st'. unfold updateCurrentModule.
  destruct (last (moduleStack st)); intros [= _ <-]; [apply R_current|done].
Qed.

Lemma steps_enterModuleDef module : steps R (enterModuleDef lookupTable module).
Proof using R_stack R_current HR.
  apply steps_bind; [|intros _; apply steps_updateCurrentModule].
  apply steps_modify. intros st. apply R_stack.
Qed.

Lemma steps_exitModuleDef : steps R (exitModuleDef lookupTable).
Proof using R_stack R_current HR.
  apply steps_bind; [|intros _; apply steps_updateCurrentModule].
  apply steps_modify. intros st. apply R_stack.
Qed.

Lemma steps_visit c : steps R (visit builtinSignatures lookupTable c).
Proof using All.
  destruct (isModuleCallback c) eqn:Hc; [|by apply steps_visit_inner].
  destruct c; try done; simpl.
  - apply steps_enterModuleDef.
  - apply steps_exitModuleDef.
Qed.

Lemma steps_walk cs : steps R (walk builtinSignatures lookupTable cs).
Proof using All.
  apply steps_forEachM, steps_visit.
Qed.

End AnyNode.
End Steps.

Global Instance keepsKeys_preorder : PreOrder keepsKeys.
Proof. unfold keepsKeys. split; [by intros st|]. intros st1 st2 st3 ??. by etrans. Qed.

Global Instance countersGrow_preorder : PreOrder countersGrow.
Proof.
  split; [by intros st prefix|].
  intros st1 st2 st3 H12 H23 prefix.
  destruct (H12 prefix) as [Hle1 Heq1], (H23 prefix) as [Hle2 Heq2].
  split; [lia|]. intros ??. by rewrite Heq2, Heq1.
Qed.

Global Instance writesOnly_preorder id : PreOrder (writesOnly id).
Proof.
  split; [by intros st k|].
  intros st1 st2 st3 H12 H23 k Hk. by rewrite H23, H12.
Qed.

Global Instance sameContext_preorder : PreOrder sameContext.
Proof.
  split; [by intros st|].
  intros st1 st2 st3 (?&?&?&?) (?&?&?&?). unfold sameContext. split_and!; congruence.
Qed.

Lemma countersGrow_fresh prefix st :
  prefix = "e" ∨ prefix = "v" →
  countersGrow st
    (setFreshVarCounters
       (<[prefix := (counterOf st prefix + 1)%N]> (freshVarCounters st)) st).
Proof.
  intros Hprefix p. unfold counterOf at 2. simpl.
  destruct (decide (prefix = p)) as [->|Hne].
  - rewrite lookup_insert_eq. simpl. split; [lia|]. naive_solver.
  - rewrite lookup_insert_ne by done. done.
Qed.

(** X1. No entry of the [effects] map is ever removed: a node that has
    an entry at some point of a traversal has one at every later point
    (its value may be rewritten). *)
Theorem effects_keys_persist `{Imports} builtinSignatures lookupTable cs st st' id :
  walk builtinSignatures lookupTable cs st = Ok (tt, st') →
  is_Some (effects st !! id) →
  is_Some (effects st' !! id).
Proof.
  intros Hwalk Hid. apply elem_of_dom. apply elem_of_dom in Hid.
  eapply (steps_walk keepsKeys); [..|exact Hwalk|exact Hid]; unfold keepsKeys;
    try done.
  - intros. simpl. rewrite dom_insert. set_solver.
  - intros. simpl. by rewrite dom_fmap.
Qed.

(** X2. A traversal never lowers a counter of the fresh-name generator,
    and it uses the generator with the prefixes [e] and [v] only: the
    counter of any other prefix is left as it was. *)
Theorem counters_grow `{Imports} builtinSignatures lookupTable cs st st' prefix :
  walk builtinSignatures lookupTable cs st = Ok (tt, st') →
  (counterOf st prefix ≤ counterOf st' prefix)%N
  ∧ (prefix ≠ "e" → prefix ≠ "v" →
     freshVarCounters st' !! prefix = freshVarCounters st !! prefix).
Proof.
  intros Hwalk.
  eapply (steps_walk countersGrow); [..|exact Hwalk];
    try apply countersGrow_fresh; by intros.
Qed.

(** X3. A name reference, a literal, an operator definition, a let-in
    and a lambda, on exit, write the [effects] entry of their own node
    and no other, and record no error: only [exitApp] rewrites the
    effects of other nodes. *)
Theorem callback_writes_own_node `{Imports} builtinSignatures lookupTable c id st st' :
  callbackNode c = Some id →
  visit builtinSignatures lookupTable c st = Ok (tt, st') →
  (∀ k, k ≠ id → effects st' !! k = effects st !! k)
  ∧ errors st' = errors st.
Proof.
  intros Hnode Hvisit.
  assert (∀ s st, writesOnly id st (setSubstitutions s st)) as Hsubs by by intros.
  assert (∀ prefix st, prefix = "e" ∨ prefix = "v" →
            writesOnly id st
              (setFreshVarCounters
                 (<[prefix := (counterOf st prefix + 1)%N]> (freshVarCounters st)) st))
    as Hfresh by by intros ??? k.
  assert (∀ v st, writesOnly id st (setEffects (<[id := v]> (effects st)) st))
    as Hset by (intros v st0 k Hk; simpl; by rewrite lookup_insert_ne).
  destruct c; simplify_eq/=.
  - split; [|by eapply keeps_errors_exitName].
    by eapply (steps_exitName (writesOnly id)).
  - split; [|by eapply keeps_errors_effectsSet].
    by eapply (steps_effectsSet (writesOnly id)).
  - split; [|by eapply keeps_errors_exitOpDef].
    by eapply (steps_exitOpDef (writesOnly id)).
  - split; [|by eapply keeps_errors_exitLet].
    by eapply (steps_exitLet (writesOnly id)).
  - split; [|by eapply keeps_errors_exitLambda].
    by eapply (steps_exitLambda (writesOnly id)).
Qed.

(** ** The errors that a traversal records *)

Lemma exitApp_error_shape `{Imports} builtinSignatures id opcode args st st' k err :
  errors st = ∅ →
  exitApp builtinSignatures id opcode args st = Ok (tt, st') →
  errors st' !! k = Some err →
  k = id
  ∧ ∃ child,
      err = mkErrorTree None
              ("Trying to infer effect for operator application in "
               +:+ expressionToString (TntApp id opcode args)) [child].
Proof.
  intros Hempty. unfold exitApp.
  rewrite bool_decide_false by (rewrite Hempty, map_size_empty; lia).
  intros (r & st1 & Hfetch & Hrest)%bind_Ok.
  destruct (fetchSignature_never_Left _ _ _ _ _ _ _ Hfetch) as [signature ->].
  apply keeps_errors_fetchSignature in Hfetch.
  apply bind_Ok in Hrest as (name & st2 & Hname%keeps_errors_freshVar & Hrest).
  apply bind_Ok in Hrest as (params & st3 & Hparams%keeps_errors_argEffects & Hrest).
  apply bind_Ok in Hrest as (subs & st4 & [= _ <-] & Hrest).
  apply bind_Ok in Hrest as (result & st5 & Hunify & Hrest).
  assert (errors st5 = ∅) as Hst5.
  { rewrite <- Hempty, <- Hfetch, <- Hname, <- Hparams.
    destruct (chain _ _) as [e|s]; [by injection Hunify as _ <-|].
    apply bind_Ok in Hunify as ([] & st6 & [= <-] & Hunify).
    apply bind_Ok in Hunify as ([] & st7 & Hrewrite%keeps_errors_rewriteEffects & [= _ <-]).
    by rewrite Hrewrite. }
  destruct result as [error|e]; injection Hrest as <-; simpl; rewrite Hst5.
  - rewrite lookup_insert. case_decide as Hk; [|by rewrite lookup_empty].
    intros [= <-]. eauto.
  - by rewrite lookup_empty.
Qed.

Lemma visit_error_shape `{Imports} builtinSignatures lookupTable c st st' k err :
  visit builtinSignatures lookupTable c st = Ok (tt, st') →
  errors st' !! k = Some err →
  errors st !! k = Some err
  ∨ ∃ opcode args child,
      c = CExitApp k opcode args
      ∧ err = mkErrorTree None
                ("Trying to infer effect for operator application in "
                 +:+ expressionToString (TntApp k opcode args)) [child].
Proof.
  intros Hvisit Herr.
  assert (errors st' = errors st → errors st !! k = Some err) as Hkept
    by by intros <-.
  destruct c; simpl in Hvisit.
  - left. apply Hkept. by eapply keeps_errors_enterModuleDef.
  - left. apply Hkept. by eapply keeps_errors_exitModuleDef.
  - left. apply Hkept. by eapply keeps_errors_exitName.
  - destruct (decide (errors st = ∅)) as [Hempty|Hne].
    + destruct (exitApp_error_shape _ _ _ _ _ _ _ _ Hempty Hvisit Herr)
        as [-> [child ->]]. right. eauto.
    + rewrite exitApp_skips in Hvisit by done. injection Hvisit as <-. by left.
  - left. apply Hkept. by eapply keeps_errors_effectsSet.
  - left. apply Hkept. by eapply keeps_errors_exitOpDef.
  - left. apply Hkept. by eapply keeps_errors_exitLet.
  - left. apply Hkept. by eapply keeps_errors_enterLambda.
  - left. apply Hkept. by eapply keeps_errors_exitLambda.
Qed.

Lemma walk_error_shape `{Imports} builtinSignatures lookupTable cs st st' k err :
  walk builtinSignatures lookupTable cs st = Ok (tt, st') →
  errors st' !! k = Some err →
  errors st !! k = Some err
  ∨ ∃ opcode args child,
      CExitApp k opcode args ∈ cs
      ∧ err = mkErrorTree None
                ("Trying to infer effect for operator application in "
                 +:+ expressionToString (TntApp k opcode args)) [child].
Proof.
  revert st. induction cs as [|c cs IH]; intros st; unfold walk; simpl.
  - intros [= <-]. by left.
  - intros ([] & st1 & Hc & Hcs)%bind_Ok Hk.
    destruct (IH _ Hcs Hk) as [Hk1|(opcode & args & child & Hin & ->)].
    + destruct (visit_error_shape _ _ _ _ _ _ _ Hc Hk1)
        as [?|(opcode & args & child & -> & ->)]; [by left|].
      right. exists opcode, args, child. split; [left|done].
    + right. exists opcode, args, child. split; [by right|done].
Qed.

Lemma map_size_le_1 (m : gmap Z ErrorTree) k err :
  size m ≤ 1 → m !! k = Some err → m = {[k := err]}.
Proof.
  intros Hsize Hk. rewrite <- (insert_delete_id m k err Hk).
  assert (delete k m = ∅) as ->; [|by rewrite insert_empty].
  apply map_size_empty_inv. rewrite map_size_delete_Some by done. lia.
Qed.

(** X4. The error map that [inferEffects] returns holds exactly one
    error.  It is keyed by the id of an application of the module, has
    no message of its own, has the text of that application in its
    location, and has exactly one child, the error of the unification,
    composition or substitution that failed. *)
Theorem inferEffects_error_shape `{Imports} builtinSignatures lookupTable module errs :
  inferEffects builtinSignatures lookupTable module = Ok (Left errs) →
  ∃ k opcode args child,
    CExitApp k opcode args ∈ callbacks module
    ∧ errs = {[k := mkErrorTree None
                      ("Trying to infer effect for operator application in "
                       +:+ expressionToString (TntApp k opcode args)) [child]]}.
Proof.
  intros Hinfer.
  assert (∃ visitor,
            visitorAfter builtinSignatures lookupTable module = Ok visitor
            ∧ walk builtinSignatures lookupTable (callbacks module) newVisitor
              = Ok (tt, visitor)
            ∧ errs = errors visitor ∧ 0 < size errs)
    as (visitor & Hafter & Hwalk & -> & Hsize).
  { revert Hinfer. unfold inferEffects, visitorAfter, walkModule.
    destruct (walk _ _ (callbacks module) newVisitor) as [[[] visitor]|msg]; [|done].
    case_bool_decide; [|done]. intros [= <-]. by exists visitor. }
  destruct (map_size_ne_0_lookup_1 (errors visitor)) as (k & err & Herr); [lia|].
  destruct (walk_error_shape _ _ _ _ _ _ _ Hwalk Herr)
    as [Hnew|(opcode & args & child & Hin & ->)].
  { simpl in Hnew. by rewrite lookup_empty in Hnew. }
  exists k, opcode, args, child. split; [done|].
  apply map_size_le_1; [|done].
  by eapply inferEffects_at_most_one_error.
Qed.

(** ** Lambdas *)

Lemma foldl_installParam_lookup `{Imports} table tree id body m params r :
  foldl (installParam table tree id body) m params !! r
  = match last (filter (λ p, truthyId (lookupValue table tree p body ≫= reference)
                             = Some r) params) with
    | Some p => Some (Some (EQuantified (paramName p id)))
    | None => m !! r
    end.
Proof.
  induction params as [|p params IH] using rev_ind; [done|].
  rewrite foldl_app, filter_app. simpl. unfold installParam at 1.
  rewrite filter_cons, filter_nil.
  destruct (truthyId _) as [r'|] eqn:Hr.
  - destruct (decide (Some r' = Some r)) as [[= ->]|Hne].
    + rewrite last_snoc. by rewrite lookup_insert_eq.
    + rewrite app_nil_r, lookup_insert_ne by congruence. apply IH.
  - rewrite decide_False by done. rewrite app_nil_r. apply IH.
Qed.

(** X6. [enterLambda] stores the placeholders under the references of
    the parameters, from left to right: under a reference [r], the
    entry afterwards is the placeholder of the last parameter whose
    lookup gives [r] (an earlier parameter with the same reference is
    overwritten), and the entry as it was when no parameter gives [r].
    Nothing else of the visitor changes. *)
Theorem enterLambda_last_parameter_wins `{Imports} st table id params expr :
  currentTable st = Some table →
  ∃ st',
    enterLambda id params expr st = Ok (tt, st')
    ∧ st' = setEffects (effects st') st
    ∧ ∀ r,
        effects st' !! r
        = match last (filter (λ p, truthyId
                                     (lookupValue table (currentScopeTree st) p (exId expr)
                                        ≫= reference) = Some r) params) with
          | Some p => Some (Some (EQuantified (paramName p id)))
          | None => effects st !! r
          end.
Proof.
  intros Htable. eexists. split; [by apply enterLambda_eq|]. split; [done|].
  intros r. apply foldl_installParam_lookup.
Qed.

(** X7. A reference to a parameter inside the lambda: after
    [enterLambda], a name that resolves to a ['param'] definition with
    the reference [r] gets the placeholder stored under [r], the one of
    the last parameter of the lambda whose lookup gives [r]. *)
Theorem parameter_reference `{Imports} builtinSignatures lookupTable
    st table id params expr q nid name def r :
  currentTable st = Some table →
  last (filter (λ p, truthyId (lookupValue table (currentScopeTree st) p (exId expr)
                                 ≫= reference) = Some r) params) = Some q →
  lookupValue table (currentScopeTree st) name nid = Some def →
  kind def = KParam →
  truthyId (reference def) = Some r →
  ∃ st',
    walk builtinSignatures lookupTable
      [CEnterLambda id params expr; CExitName nid name] st = Ok (tt, st')
    ∧ effectsGet st' nid = Some (EQuantified (paramName q id)).
Proof.
  intros Htable Hlast Hdef Hkind Href.
  pose proof (enterLambda_eq st table id params expr Htable) as Henter.
  set (st1 := setEffects
                (foldl (installParam table (currentScopeTree st) id (exId expr))
                       (effects st) params) st) in Henter.
  assert (currentTable st1 = Some table) as Htable1 by done.
  assert (currentScopeTree st1 = currentScopeTree st) as Htree1 by done.
  assert (effects st1 !! r = Some (Some (EQuantified (paramName q id)))) as Heffects.
  { unfold st1. simpl. by rewrite foldl_installParam_lookup, Hlast. }
  eexists. split.
  - unfold walk. simpl. rewrite (bind_Ok_eq _ _ _ _ _ Henter).
    rewrite (bind_Ok_eq _ _ st1 tt
               (setEffects (<[nid := Some (EQuantified (paramName q id))]> (effects st1)) st1));
      [reflexivity|].
    rewrite (exitName_resolved _ _ _ Htable1 nid name def) by by rewrite Htree1.
    rewrite Hkind, Href. unfold effectsHas, effectsGet. rewrite Heffects.
    by rewrite bool_decide_true by by eexists.
  - unfold effectsGet. simpl. by rewrite lookup_insert_eq.
Qed.

Lemma mergeInMany_Right {L A} (xs : list (Either L A)) ys :
  mergeInMany xs = Right ys ↔ xs = Right <$> ys.
Proof.
  revert ys. induction xs as [|[e|a] xs IH]; intros ys; simpl.
  - split; [by intros [= <-]|by destruct ys].
  - split; [by destruct (mergeInMany xs)|by destruct ys].
  - destruct (mergeInMany xs) as [es|l] eqn:Hxs.
    + split; [done|]. destruct ys as [|y ys]; [done|]. intros [= -> Hys].
      by apply (IH ys) in Hys.
    + split.
      * intros [= <-]. by rewrite (proj1 (IH l)).
      * destruct ys as [|y ys]; [done|]. intros [= -> Hys].
        apply (IH ys) in Hys. by injection Hys as <-.
Qed.

Lemma mergeInMany_Left {L A} (xs : list (Either L A)) e :
  Left e ∈ xs → ∃ es, mergeInMany xs = Left es.
Proof.
  induction xs as [|x xs IH]; [by intros ?%elem_of_nil|].
  intros [<-|Hin]%elem_of_cons; simpl.
  - destruct (mergeInMany xs); eauto.
  - destruct (IH Hin) as [es ->]. destruct x; eauto.
Qed.

(** X8. [exitLambda] never throws and never records an error.  When the
    body has an effect and the running substitution applies to the
    placeholder of every parameter, the lambda gets the arrow of the
    results, one per parameter in order, to the effect of the body.
    When the body has no effect, or the application fails for some
    parameter, nothing changes: the lambda is left without an effect
    and without an error. *)
Theorem exitLambda_arrow `{Imports} st id params expr :
  ∃ st',
    exitLambda id params expr st = Ok (tt, st')
    ∧ ((∃ result ps,
          effectsGet st (exId expr) = Some result
          ∧ Forall2 (λ p e, applySubstitution (substitutions st)
                              (EQuantified (paramName p id)) = Right e) params ps
          ∧ st' = setEffects (<[id := Some (EArrow ps result)]> (effects st)) st)
       ∨ ((effectsGet st (exId expr) = None
           ∨ ∃ p err, p ∈ params
                      ∧ applySubstitution (substitutions st)
                          (EQuantified (paramName p id)) = Left err)
          ∧ st' = st)).
Proof.
  unfold exitLambda. destruct (effectsGet st (exId expr)) as [result|];
    [|eexists; split; [done|]; right; auto].
  destruct (mergeInMany _) as [es|ps] eqn:Hmerge.
  - eexists. split; [done|]. right. split; [|done]. right.
    clear result. revert es Hmerge.
    induction params as [|p params IH]; intros es Hmerge; [done|].
    simpl in Hmerge.
    destruct (applySubstitution (substitutions st) (EQuantified (paramName p id)))
      as [err|e] eqn:Hp; [exists p, err; split; [left|done]|].
    destruct (mergeInMany _) as [es'|ps'] eqn:Hrest; [|done].
    destruct (IH es' eq_refl) as (p' & err & Hin & Herr).
    exists p', err. split; [by right|done].
  - eexists. split; [done|]. left. exists result, ps. split; [done|]. split; [|done].
    apply mergeInMany_Right in Hmerge. clear result.
    revert ps Hmerge. induction params as [|p params IH]; intros [|e ps]; try done.
    rewrite !fmap_cons. intros [= Hp Hps]. constructor; [done|by apply IH].
Qed.

(** ** Modules *)

Lemma TntEx_nested_ind (P : TntEx → Prop) :
  (∀ id name, P (TntName id name)) →
  (∀ id value, P (TntBool id value)) →
  (∀ id value, P (TntInt id value)) →
  (∀ id value, P (TntStr id value)) →
  (∀ id opcode args, Forall P args → P (TntApp id opcode args)) →
  (∀ id params qualifier expr, P expr → P (TntLambda id params qualifier expr)) →
  (∀ id opdef expr, P (opdefExpr opdef) → P expr → P (TntLet id opdef expr)) →
  ∀ e, P e.
Proof.
  intros Hname Hbool Hint Hstr Happ Hlambda Hlet. fix IH 1.
  intros [id name|id value|id value|id value|id opcode args
         |id params qualifier expr|id [defId defName defQualifier body] expr].
  - apply Hname.
  - apply Hbool.
  - apply Hint.
  - apply Hstr.
  - apply Happ. induction args as [|a args IHargs]; constructor; [apply IH|apply IHargs].
  - apply Hlambda, IH.
  - apply Hlet; apply IH.
Qed.

Lemma TntModule_nested_ind (P : TntModule → Prop) :
  (∀ id name defs,
     Forall (λ d, match d with DefModule _ m => P m | _ => True end) defs →
     P (mkModule id name defs)) →
  ∀ m, P m.
Proof.
  intros Hmodule. fix IH 1. intros [id name defs]. apply Hmodule.
  induction defs as [|d defs IHdefs]; constructor; [|apply IHdefs].
  destruct d; try exact I. apply IH.
Qed.

Lemma walkExpression_inner e :
  Forall (λ c, isModuleCallback c = false) (walkExpression e).
Proof.
  induction e as [| | | |id opcode args IHargs|id params qualifier expr IH
                 |id [defId defName defQualifier body] expr IHbody IHexpr]
    using TntEx_nested_ind; simpl; repeat constructor.
  - apply Forall_app. split; [|by repeat constructor].
    induction IHargs as [|a args Ha _ IH]; [constructor|by apply Forall_app].
  - apply Forall_app. split; [done|by repeat constructor].
  - repeat (apply Forall_app; split); try done; by repeat constructor.
Qed.

Lemma walkDefinition_inner d :
  match d with DefModule _ _ => False | _ => True end →
  Forall (λ c, isModuleCallback c = false) (walkDefinition d).
Proof.
  destruct d as [def| | |id name assumption| | |id name protoName overrides|];
    simpl; try done; intros _; try constructor.
  - apply Forall_app. split; [apply walkExpression_inner|by repeat constructor].
  - apply walkExpression_inner.
  - induction overrides as [|o overrides IH]; simpl; [constructor|].
    apply Forall_app. split; [apply walkExpression_inner|done].
Qed.

Lemma walkDefs_cons id name d defs :
  walkDefs (mkModule id name (d :: defs))
  = walkDefinition d ++ walkDefs (mkModule id name defs).
Proof. reflexivity. Qed.

Section Modules.
Context `{Imports}.
Variable builtinSignatures : gmap string Signature.
Variable lookupTable : LookupTableByModule.

Lemma inner_sameContext cs st st' :
  Forall (λ c, isModuleCallback c = false) cs →
  walk builtinSignatures lookupTable cs st = Ok (tt, st') →
  sameContext st st'.
Proof.
  intros Hinner Hwalk.
  by eapply (steps_walk_inner sameContext); [..|exact Hinner|exact Hwalk].
Qed.

Lemma inModule_sameContext m st st' :
  inModule lookupTable m st → sameContext st st' → inModule lookupTable m st'.
Proof.
  intros (Hlast & Hmodule & Htable & Htree) (Hs & Hm & Ht & Htr).
  unfold inModule. by rewrite Hs, Hm, Ht, Htr.
Qed.

Lemma enterModuleDef_eq module st :
  enterModuleDef lookupTable module st
  = Ok (tt, setCurrent module (lookupTable !! moduleName module)
              (treeFromModule module)
              (setModuleStack (moduleStack st ++ [module]) st)).
Proof.
  unfold enterModuleDef, bind, modify, updateCurrentModule. simpl.
  by rewrite last_snoc.
Qed.

Lemma exitModuleDef_nested parent module st stack :
  moduleStack st = stack ++ [module] →
  last stack = Some parent →
  exitModuleDef lookupTable st
  = Ok (tt, setCurrent parent (lookupTable !! moduleName parent)
              (treeFromModule parent) (setModuleStack stack st)).
Proof.
  intros Hstack Hlast.
  unfold exitModuleDef, bind, modify, updateCurrentModule. simpl.
  by rewrite Hstack, removelast_last, Hlast.
Qed.

Lemma exitModuleDef_top module st :
  moduleStack st = [module] →
  exitModuleDef lookupTable st = Ok (tt, setModuleStack [] st).
Proof.
  intros Hstack. unfold exitModuleDef, bind, modify, updateCurrentModule. simpl.
  by rewrite Hstack.
Qed.

Lemma walkDefs_sameContext module :
  ∀ st st',
    inModule lookupTable module st →
    walk builtinSignatures lookupTable (walkDefs module) st = Ok (tt, st') →
    sameContext st st'.
Proof.
  induction module as [id name defs IHdefs] using TntModule_nested_ind.
  intros st st'. generalize (mkModule id name defs) at 1. intros parent.
  revert st. induction IHdefs as [|d defs Hd _ IH]; intros st Hin.
  { intros [= <-]. reflexivity. }
  rewrite walkDefs_cons. intros (st1 & Hd1 & Hrest)%walk_app.
  assert (sameContext st st1) as Hsame.
  { destruct d as [| | | | | | |id' module];
      try (eapply inner_sameContext; [|exact Hd1]; by apply walkDefinition_inner).
    simpl in Hd1. change (?c :: ?l ++ ?r) with ([c] ++ l ++ r) in Hd1.
    apply walk_app in Hd1 as (sta & Henter & Hd1).
    apply walk_app in Hd1 as (stb & Hdefs & Hexit).
    unfold walk in Henter, Hexit. simpl in Henter, Hexit.
    rewrite (bind_Ok_eq _ _ _ _ _ (enterModuleDef_eq module st)) in Henter.
    injection Henter as <-.
    assert (sameContext
              (setCurrent module (lookupTable !! moduleName module)
                 (treeFromModule module)
                 (setModuleStack (moduleStack st ++ [module]) st)) stb)
      as (Hstack & _ & _ & _).
    { apply Hd; [|done]. unfold inModule. simpl. by rewrite last_snoc. }
    simpl in Hstack. destruct Hin as (Hlast & Hmodule & Htable & Htree).
    rewrite (bind_Ok_eq _ _ _ _ _ (exitModuleDef_nested parent module stb _ Hstack Hlast))
      in Hexit.
    injection Hexit as <-. unfold sameContext. simpl. by rewrite Hmodule, Htable, Htree. }
  etrans; [exact Hsame|].
  apply IH; [by eapply inModule_sameContext|done].
Qed.

End Modules.

(** X9. Nested modules.  The callbacks of a module definition that is
    walked inside a module [parent] leave the traversal context as they
    found it: after [exitModuleDef] the module stack, the current
    module, the current table and the current scope tree are those of
    [parent] again, however deep the modules inside are nested. *)
Theorem nested_module_restores `{Imports} builtinSignatures lookupTable
    parent id module st st' :
  inModule lookupTable parent st →
  walk builtinSignatures lookupTable (walkDefinition (DefModule id module)) st
  = Ok (tt, st') →
  sameContext st st' ∧ inModule lookupTable parent st'.
Proof.
  intros Hin Hwalk.
  assert (sameContext st st') as Hsame; [|split; [done|by eapply inModule_sameContext]].
  simpl in Hwalk. change (?c :: ?l ++ ?r) with ([c] ++ l ++ r) in Hwalk.
  apply walk_app in Hwalk as (sta & Henter & Hwalk).
  apply walk_app in Hwalk as (stb & Hdefs & Hexit).
  unfold walk in Henter, Hexit. simpl in Henter, Hexit.
  rewrite (bind_Ok_eq _ _ _ _ _ (enterModuleDef_eq _ module st)) in Henter.
  injection Henter as <-.
  apply walkDefs_sameContext in Hdefs as (Hstack & _ & _ & _);
    [|unfold inModule; simpl; by rewrite last_snoc].
  simpl in Hstack. destruct Hin as (Hlast & Hmodule & Htable & Htree).
  rewrite (bind_Ok_eq _ _ _ _ _ (exitModuleDef_nested _ parent module stb _ Hstack Hlast))
    in Hexit.
  injection Hexit as <-. unfold sameContext. simpl. by rewrite Hmodule, Htable, Htree.
Qed.

(** X10. The module that [inferEffects] is given: when the traversal
    completes, the module stack is empty again, but the current module,
    table and scope tree are still those of the module, since
    [updateCurrentModule] does nothing on an empty stack. *)
Theorem top_module_context `{Imports} builtinSignatures lookupTable module visitor :
  visitorAfter builtinSignatures lookupTable module = Ok visitor →
  moduleStack visitor = []
  ∧ currentModule visitor = Some module
  ∧ currentTable visitor = lookupTable !! moduleName module
  ∧ currentScopeTree visitor = treeFromModule module.
Proof.
  unfold visitorAfter, walkModule, callbacks.
  destruct (walk _ _ _ newVisitor) as [[[] st]|msg] eqn:Hwalk; [|done].
  intros [= <-].
  change (?c :: ?l ++ ?r) with ([c] ++ l ++ r) in Hwalk.
  apply walk_app in Hwalk as (sta & Henter & Hwalk).
  apply walk_app in Hwalk as (stb & Hdefs & Hexit).
  unfold walk in Henter, Hexit. simpl in Henter, Hexit.
  rewrite (bind_Ok_eq _ _ _ _ _ (enterModuleDef_eq _ module newVisitor)) in Henter.
  injection Henter as <-.
  apply walkDefs_sameContext in Hdefs as (Hstack & Hmodule & Htable & Htree);
    [|by unfold inModule].
  simpl in Hstack, Hmodule, Htable, Htree.
  rewrite (bind_Ok_eq _ _ _ _ _ (exitModuleDef_top _ module stb Hstack)) in Hexit.
  by injection Hexit as <-.
Qed.

(** X11. A module of declarations only ([const], [var], type
    definitions and imports) has nothing to infer: the result is the
    empty map of effects, whatever the builtin signatures are and
    whether or not the lookup tables know the module. *)
Theorem declarations_only `{Imports} builtinSignatures lookupTable id name defs :
  forallb isDeclaration defs = true →
  inferEffects builtinSignatures lookupTable (mkModule id name defs) = Ok (Right ∅).
Proof.
  intros Hdecl.
  assert (walkDefs (mkModule id name defs) = []) as Hnil.
  { induction defs as [|d defs IH]; [done|].
    apply andb_prop in Hdecl as [Hd Hdefs]. rewrite walkDefs_cons, IH by done.
    by destruct d. }
  unfold inferEffects, walkModule, callbacks. rewrite Hnil.
  unfold walk, forEachM, visit. simpl app.
  rewrite (bind_Ok_eq _ _ _ _ _ (enterModuleDef_eq _ _ newVisitor)).
  set (m := mkModule id name defs).
  rewrite (bind_Ok_eq _ _ _ _ _
             (exitModuleDef_top _ m
                (setCurrent m (lookupTable !! moduleName m) (treeFromModule m)
                   (setModuleStack (moduleStack newVisitor ++ [m]) newVisitor))
                eq_refl)).
  reflexivity.
Qed.

(** ** The names of quantified variables *)

Lemma pretty_N_go_not_underscore x s :
  (∀ s', s ≠ "_" +:+ s') → ∀ s', pretty_N_go x s ≠ "_" +:+ s'.
Proof.
  revert s. induction (N.lt_wf_0 x) as [x _ IH]; intros s Hs.
  assert (x = 0 ∨ 0 < x)%N as [->|?] by lia.
  - by rewrite pretty_N_go_0.
  - rewrite pretty_N_go_step by done. apply IH.
    { by apply N.div_lt. }
    intros s'. unfold pretty_N_char. by repeat case_match.
Qed.

Lemma pretty_N_not_underscore (n : N) s' : pretty n ≠ "_" +:+ s'.
Proof.
  unfold pretty, pretty_N. case_decide; [done|].
  by apply pretty_N_go_not_underscore.
Qed.

Lemma substring_0_0 (s : string) : String.substring 0 0 s = "".
Proof. by destruct s. Qed.

(** X12. The names of quantified variables stay apart.  [newInstance]
    keeps, for the running substitution, the renamings of the names
    that start with [e_]: the placeholder of a lambda parameter is such
    a name, and a name that [freshVar] returns for the prefix [e] or
    [v] (the only prefixes the visitor uses) never is; so no name
    returned by [freshVar] is the placeholder of a parameter. *)
Theorem names_apart prefix st name st' p (id : Z) :
  prefix = "e" ∨ prefix = "v" →
  freshVar prefix st = Ok (name, st') →
  (∀ s, subName s = paramName p id → lambdaIntroduced s = true)
  ∧ (∀ s, subName s = name → lambdaIntroduced s = false)
  ∧ name ≠ paramName p id.
Proof.
  intros Hprefix [= <- _]. set (n := default 0%N (freshVarCounters st !! prefix)).
  assert (String.prefix "e_" (paramName p id) = true) as Htrue.
  { apply String.prefix_correct. unfold paramName.
    cbv [String.append String.length]. simpl String.substring.
    by rewrite substring_0_0. }
  assert (String.prefix "e_" (prefix +:+ pretty n) = false) as Hfalse.
  { destruct (String.prefix "e_" (prefix +:+ pretty n)) eqn:Hp; [|done].
    apply String.prefix_correct in Hp.
    destruct Hprefix as [-> | ->];
      cbv [String.append String.length] in Hp; simpl in Hp; [|done].
    destruct (pretty n) as [|c s] eqn:Hn; [done|]. simpl in Hp.
    injection Hp as Hc _. subst c.
    by destruct (pretty_N_not_underscore n s). }
  unfold lambdaIntroduced. split_and!.
  - by intros s ->.
  - by intros s ->.
  - intros Heq. congruence.
Qed.

(** ** The properties on the sample modules and tables *)

Section OnMoreSamples.
Import SpecModel Samples MoreSamples.
#[local] Existing Instance specImports.

Lemma effects_keys_persist_witness :
  let st := stateAfter readXTables [CEnterModuleDef readX; CExitName 2 "x"] in
  let st' := stateAfter readXTables
               [CEnterModuleDef readX; CExitName 2 "x";
                CExitApp 3 "not" [TntName 2 "x"]] in
  is_Some (effects st !! 2%Z) ∧ is_Some (effects st' !! 2%Z).
Proof.
  intros st st'.
  assert (is_Some (effects st !! 2%Z)) as Hid by (vm_compute; eauto).
  split; [done|].
  apply (effects_keys_persist builtins readXTables
           [CExitApp 3 "not" [TntName 2 "x"]] st st' 2%Z); [|done].
  vm_compute. reflexivity.
Defined.

Lemma counters_grow_witness :
  let st := stateAfter readXTables [CEnterModuleDef readX; CExitName 2 "x"] in
  let st' := stateAfter readXTables
               [CEnterModuleDef readX; CExitName 2 "x";
                CExitApp 3 "not" [TntName 2 "x"]] in
  (counterOf st "v" ≤ counterOf st' "v")%N
  ∧ ("x" ≠ "e" → "x" ≠ "v" →
     freshVarCounters st' !! "x" = freshVarCounters st !! "x").
Proof.
  intros st st'. split.
  - apply (counters_grow builtins readXTables
             [CExitApp 3 "not" [TntName 2 "x"]] st st' "v").
    vm_compute. reflexivity.
  - apply (counters_grow builtins readXTables
             [CExitApp 3 "not" [TntName 2 "x"]] st st' "x").
    vm_compute. reflexivity.
Defined.

Lemma callback_writes_own_node_witness :
  let st := stateAfter readXTables [CEnterModuleDef readX] in
  let st' := stateAfter readXTables [CEnterModuleDef readX; CExitName 2 "x"] in
  (∀ k, k ≠ 2%Z → effects st' !! k = effects st !! k)
  ∧ errors st' = errors st.
Proof.
  intros st st'.
  apply (callback_writes_own_node builtins readXTables (CExitName 2 "x") 2%Z st st');
    [reflexivity|vm_compute; reflexivity].
Defined.

Lemma inferEffects_error_shape_witness :
  inferEffects builtins failSoftTables failSoft = Ok (Left {[3%Z := arityError]})
  ∧ ∃ k opcode args child,
      CExitApp k opcode args ∈ callbacks failSoft
      ∧ {[3%Z := arityError]}
        =@{gmap Z ErrorTree}
          {[k := mkErrorTree None
                   ("Trying to infer effect for operator application in "
                    +:+ expressionToString (TntApp k opcode args)) [child]]}.
Proof.
  assert (inferEffects builtins failSoftTables failSoft
          = Ok (Left {[3%Z := arityError]})) as Hresult
    by (vm_compute; reflexivity).
  split; [done|].
  exact (inferEffects_error_shape builtins failSoftTables failSoft _ Hresult).
Defined.

Lemma exitApp_records_failure_witness :
  let st := stateAfter failSoftTables
              [CEnterModuleDef failSoft; CExitLiteral 1; CExitLiteral 2] in
  ∃ st',
    exitApp builtins 3 "not" [TntBool 1 true; TntBool 2 false] st = Ok (tt, st')
    ∧ errors st' = {[3%Z := arityError]}
    ∧ effects st' = effects st.
Proof.
  intros st.
  destruct (exitApp_records_failure builtins st 3 "not"
              [TntBool 1 true; TntBool 2 false]
              (EArrow [EConcrete (VQuantified "v0") (VConcrete []) (VQuantified "v1")]
                      (EConcrete (VQuantified "v0") (VConcrete []) (VQuantified "v1")))
              (afterFresh 2 st) [pure; pure]
              (mkErrorTree (Some "Expected the same number of arguments")
                 "Trying to unify two effects" []))
    as (st' & Happ & Herrors & Heffects & _).
  - vm_compute. reflexivity.
  - vm_compute. reflexivity.
  - repeat constructor.
  - vm_compute. reflexivity.
  - exists st'. split; [done|]. split; [|done]. rewrite Herrors. reflexivity.
Defined.

Lemma enterLambda_last_parameter_wins_witness :
  let st := stateAfter twoParamsTables [CEnterModuleDef twoParams] in
  ∃ st',
    enterLambda 2 ["p"; "q"] (TntName 1 "p") st = Ok (tt, st')
    ∧ effects st' !! 2%Z = Some (Some (EQuantified "e_q_2")).
Proof.
  intros st.
  destruct (enterLambda_last_parameter_wins st twoParamsTable 2
              ["p"; "q"] (TntName 1 "p"))
    as (st' & Henter & _ & Heffects); [vm_compute; reflexivity|].
  exists st'. split; [done|]. rewrite Heffects. vm_compute. reflexivity.
Defined.

Lemma parameter_reference_witness :
  let st := stateAfter twoParamsTables [CEnterModuleDef twoParams] in
  ∃ st',
    walk builtins twoParamsTables
      [CEnterLambda 2 ["p"; "q"] (TntName 1 "p"); CExitName 1 "p"] st
    = Ok (tt, st')
    ∧ effectsGet st' 1 = Some (EQuantified (paramName "q" 2)).
Proof.
  intros st.
  apply (parameter_reference builtins twoParamsTables st twoParamsTable 2
           ["p"; "q"] (TntName 1 "p") "q" 1 "p"
           (mkValueDefinition KParam "p" (Some 2%Z) (Some 2%Z)) 2);
    vm_compute; reflexivity.
Defined.

Lemma nested_module_restores_witness :
  let st := stateAfter outerTables [CEnterModuleDef outer] in
  let st' := stateAfter outerTables
               (CEnterModuleDef outer :: walkDefinition (DefModule 3 inner)) in
  inModule outerTables outer st
  ∧ sameContext st st'
  ∧ inModule outerTables outer st'.
Proof.
  intros st st'.
  assert (inModule outerTables outer st) as Hin
    by (unfold inModule; split_and!; vm_compute; reflexivity).
  split; [done|].
  apply (nested_module_restores builtins outerTables outer 3 inner st st'); [done|].
  vm_compute. reflexivity.
Defined.

Lemma top_module_context_witness :
  let visitor := stateAfter readXTables (callbacks readX) in
  visitorAfter builtins readXTables readX = Ok visitor
  ∧ moduleStack visitor = []
  ∧ currentModule visitor = Some readX
  ∧ currentTable visitor = readXTables !! moduleName readX
  ∧ currentScopeTree visitor = treeFromModule readX.
Proof.
  intros visitor.
  assert (visitorAfter builtins readXTables readX = Ok visitor) as Hafter
    by (vm_compute; reflexivity).
  split; [done|].
  exact (top_module_context builtins readXTables readX visitor Hafter).
Defined.

Lemma declarations_only_witness :
  inferEffects builtins readXTables
    (mkModule 3 "declarations" [DefVar 1 "x"; DefConst 2 "N"])
  = Ok (Right ∅).
Proof.
  apply (declarations_only builtins readXTables 3 "declarations"
           [DefVar 1 "x"; DefConst 2 "N"]).
  reflexivity.
Defined.

Lemma names_apart_witness :
  (∀ s, subName s = paramName "p" 5 → lambdaIntroduced s = true)
  ∧ (∀ s, subName s = "v0" → lambdaIntroduced s = false)
  ∧ "v0" ≠ paramName "p" 5.
Proof.
  apply (names_apart "v" newVisitor "v0" (afterFresh 1 newVisitor) "p" 5);
    [by right|vm_compute; reflexivity].
Defined.

Lemma scanConflicts_ok_iff_witness :
  scanConflicts scopesForId sideBySide apart = ConflictsOk
  ∧ (∀ def, def ∈ nameDefinitions apart →
        length (conflictingNames scopesForId sideBySide
                  (nameDefinitions apart) def) ≤ 1)
  ∧ (∀ def, def ∈ typeDefinitions apart →
        length (conflictingTypes (typeDefinitions apart) def) ≤ 1).
Proof.
  assert (scanConflicts scopesForId sideBySide apart = ConflictsOk) as Hok
    by (vm_compute; reflexivity).
  split; [done|].
  exact (proj1 (scanConflicts_ok_iff scopesForId sideBySide apart) Hok).
Defined.

Lemma scanConflicts_error_witness :
  let conflicts :=
    [mkConflict ConflictOperator "not" [SourceBuiltin; SourceUser 7];
     mkConflict ConflictType "T" [SourceUser 3; SourceUser 4]] in
  scanConflicts scopesForId sideBySide clashes = ConflictsError conflicts
  ∧ conflicts ≠ []
  ∧ NoDup ((λ c, (conflictKind c, conflictIdentifier c)) <$> conflicts)
  ∧ ∀ c, c ∈ conflicts → 1 < length (conflictSources c).
Proof.
  intros conflicts.
  assert (scanConflicts scopesForId sideBySide clashes = ConflictsError conflicts)
    as Herror by (vm_compute; reflexivity).
  destruct (scanConflicts_error scopesForId sideBySide clashes conflicts Herror)
    as (Hne & Hdup & Hsources).
  split; [done|]. split; [done|]. split; [done|].
  intros c Hc. by destruct (Hsources c Hc).
Defined.

Lemma unscoped_duplicate_reported_witness :
  ∃ conflicts,
    scanConflicts scopesForId sideBySide clashes = ConflictsError conflicts
    ∧ ∃ c, c ∈ conflicts ∧ conflictKind c = ConflictOperator
           ∧ conflictIdentifier c = "not".
Proof.
  apply (unscoped_duplicate_reported scopesForId sideBySide clashes 0 1
           (builtinDef "not")
           (mkValueDefinition (KOther "val") "not" (Some 7%Z) (Some 1%Z)));
    [reflexivity|reflexivity|lia|reflexivity|reflexivity].
Defined.

Lemma duplicate_type_reported_witness :
  ∃ conflicts,
    scanConflicts scopesForId sideBySide clashes = ConflictsError conflicts
    ∧ ∃ c, c ∈ conflicts ∧ conflictKind c = ConflictType
           ∧ conflictIdentifier c = "T".
Proof.
  apply (duplicate_type_reported scopesForId sideBySide clashes 0 1
           (mkTypeDefinition "T" (Some 3%Z)) (mkTypeDefinition "T" (Some 4%Z)));
    [reflexivity|reflexivity|lia|reflexivity].
Defined.

Lemma unrelated_scopes_accepted_witness :
  scanConflicts scopesForId sideBySide apart = ConflictsOk.
Proof.
  apply (unrelated_scopes_accepted scopesForId sideBySide apart).
  - intros [|[|i]] [|[|j]] d d' Hij Hi Hj _; try done;
      injection Hi as <-; injection Hj as <-; vm_compute; reflexivity.
  - apply NoDup_singleton.
Defined.

End OnMoreSamples.
